(** * Disease-detection backend (src/server.js): a shallow embedding

    The server is one Express application with three routes.  Everything
    the routes do is modelled here as code in a small state-and-exception
    monad [Eff]: the module-level array [simulatedResponses] and the
    table [detection_logs] are the shared store, and what the handlers
    get from outside (the values of [Math.random()], [fs.statSync], the
    clock, the outcome of a database statement) is read from an
    environment [Env].

    Conventions.
    - A JavaScript Number holding an integer is a [Z]; a value returned by
      [Math.random()] is a rational [Q] that is a binary64 number
      ([is_Number]).  A product with a draw ([Math.random() * n]) is the
      exact product rounded to binary64, to nearest with ties to even
      ([Number_mul]), as IEEE 754 multiplication gives it.
    - A JavaScript string is a [string]; the program's own strings are
      all ASCII.
    - An object is a record; the objects of [simulatedResponses] are
      shared by reference, so a handle to one of them is its index. *)

From Stdlib Require Import ZArith QArith Qround Qpower String Ascii List Bool Lia.
From Stdlib Require Import Sorted Permutation DecimalFacts DecimalPos.
From stdpp Require Import base list.
Import ListNotations.

Local Open Scope string_scope.
Local Open Scope Z_scope.

(** ** Data *)

(** One entry of [processingSteps]. *)
Record Step := mkStep {
  step : string;
  completed : bool;
  duration : Z
}.

(** A detection result object.  The five literals of [simulatedResponses]
    have no [processingSteps] property until the handler assigns one. *)
Record Result := mkResult {
  status : string;
  title : string;
  message : string;
  confidence : Z;
  color : string;
  processingSteps : option (list Step)
}.

(** A file object as multer hands it to the handler in [req.files]. *)
Record File := mkFile {
  fieldname : string;
  originalname : string;
  mimetype : string;
  size : Z;
  filename : string;
  path : string
}.

(** A row of the table [detection_logs]. *)
Record Row := mkRow {
  id : Z;
  image1_name : string;
  image2_name : string;
  result : string;
  created_at : string
}.

(** A JavaScript exception value: the constructor's name and the message. *)
Inductive Exn := JsError (name msg : string).

(** What a handler does besides answering, in the order it does it. *)
Inductive Event :=
| EvSleep (ms : Z)
| EvInsert (image1 image2 resultText : string)
| EvSelect
| EvConsoleError (msg : string).

(** ** Environment and store *)

Record Env := mkEnv {
  (** the n-th value returned by [Math.random()] *)
  Math_random_values : nat -> Q;
  (** [statSync(p).size], or [None] when [statSync] throws *)
  stat_size : string -> option Z;
  (** the n-th reading of the clock ([Date.now()], [new Date()]), in ms *)
  clock_values : nat -> Z;
  (** [__dirname] *)
  dirname : string;
  (** the value of [CURRENT_TIMESTAMP] when a row is inserted *)
  CURRENT_TIMESTAMP : string;
  (** whether the INSERT statement reports an error to its callback *)
  insert_error : bool;
  (** whether the SELECT statement reports an error to its callback *)
  select_error : bool
}.

Record World := mkWorld {
  (** number of [Math.random()] calls made so far *)
  draws : nat;
  (** number of clock readings made so far *)
  ticks : nat;
  (** the current contents of the array [simulatedResponses] *)
  catalog : list Result;
  (** the rows of [detection_logs], in insertion order *)
  detection_logs : list Row;
  (** the AUTOINCREMENT counter of the table *)
  sqlite_sequence : Z;
  (** effects performed so far, oldest first *)
  events : list Event
}.

Definition set_draws (n : nat) (w : World) : World :=
  mkWorld n (ticks w) (catalog w) (detection_logs w) (sqlite_sequence w) (events w).

Definition set_ticks (n : nat) (w : World) : World :=
  mkWorld (draws w) n (catalog w) (detection_logs w) (sqlite_sequence w) (events w).

Definition set_catalog (c : list Result) (w : World) : World :=
  mkWorld (draws w) (ticks w) c (detection_logs w) (sqlite_sequence w) (events w).

Definition set_table (rows : list Row) (seq : Z) (w : World) : World :=
  mkWorld (draws w) (ticks w) (catalog w) rows seq (events w).

Definition add_event (e : Event) (w : World) : World :=
  mkWorld (draws w) (ticks w) (catalog w) (detection_logs w) (sqlite_sequence w)
          (events w ++ [e])%list.

(** ** The monad *)

Inductive Outcome (A : Type) :=
| Return (a : A)
| Throw (e : Exn).
Arguments Return {A} a.
Arguments Throw {A} e.

Definition Eff (A : Type) : Type := Env -> World -> Outcome A * World.

Definition ret {A} (a : A) : Eff A := fun _ w => (Return a, w).

Definition throw {A} (e : Exn) : Eff A := fun _ w => (Throw e, w).

Definition bind {A B} (m : Eff A) (k : A -> Eff B) : Eff B :=
  fun env w =>
    match m env w with
    | (Return a, w') => k a env w'
    | (Throw e, w') => (Throw e, w')
    end.

(** [try { body } catch (e) { handler e }]: the store keeps what [body]
    did before it threw. *)
Definition try_catch {A} (body : Eff A) (handler : Exn -> Eff A) : Eff A :=
  fun env w =>
    match body env w with
    | (Return a, w') => (Return a, w')
    | (Throw e, w') => handler e env w'
    end.

Notation "x <- m ;; k" := (bind m (fun x => k))
  (at level 100, m at next level, right associativity).
Notation "m ;;; k" := (bind m (fun _ => k))
  (at level 100, right associativity).

Definition ask {A} (f : Env -> A) : Eff A := fun env w => (Return (f env), w).

Definition get {A} (f : World -> A) : Eff A := fun _ w => (Return (f w), w).

Definition modify (f : World -> World) : Eff unit := fun _ w => (Return tt, f w).

(** ** Built-ins the handlers call *)

(** [Math.random()] *)
Definition Math_random : Eff Q :=
  fun env w => (Return (Math_random_values env (draws w)), set_draws (S (draws w)) w).

(** [Date.now()] *)
Definition Date_now : Eff Z :=
  fun env w => (Return (clock_values env (ticks w)), set_ticks (S (ticks w)) w).

(** [statSync(p).size] *)
Definition statSync_size (p : string) : Eff Z :=
  fun env w =>
    match stat_size env p with
    | Some n => (Return n, w)
    | None => (Throw (JsError "Error" "ENOENT: no such file or directory, stat"), w)
    end.

(** [x < y] on Numbers that are rationals. *)
Definition Qltb (x y : Q) : bool := if Qlt_le_dec x y then true else false.

(** [Math.floor] *)
Definition Math_floor (x : Q) : Z := Qfloor x.

(** [Math.round]: the nearest integer, a tie going up. *)
Definition Math_round (x : Q) : Z := Qfloor (x + (1 # 2)).

(** *** Number arithmetic

    A finite Number is a binary64 number: an integer of at most 53 bits
    times a power of two, the exponent being at least -1074.  The result
    of an arithmetic operation is the exact result rounded to the nearest
    such number, a tie going to the one with an even significand.  (A
    result of 2^1024 or more would be Infinity; the program's products
    stay below 2^30.) *)

Definition pow2 (k : Z) : Q := (2 ^ k)%Q.

(** The nearest integer, a tie going to the even one. *)
Definition round_half_even (y : Q) : Z :=
  let f := Qfloor y in
  match (y - inject_Z f ?= 1 # 2)%Q with
  | Lt => f
  | Gt => f + 1
  | Eq => if Z.even f then f else f + 1
  end.

(** The integer k with 2^k <= x < 2^(k+1), for x > 0. *)
Definition ilog2 (x : Q) : Z :=
  let k := Z.log2 (Qnum x) - Z.log2 (Zpos (Qden x)) in
  if Qle_bool (pow2 k) x then k else k - 1.

(** A positive real rounded to binary64: 53 significant bits, or the
    multiples of 2^-1074 in the subnormal range. *)
Definition round_positive (x : Q) : Q :=
  let e := Z.max (ilog2 x - 52) (-1074) in
  (inject_Z (round_half_even (x / pow2 e)) * pow2 e)%Q.

Definition binary64 (x : Q) : Q :=
  match (x ?= 0)%Q with
  | Eq => 0%Q
  | Gt => round_positive x
  | Lt => (- round_positive (- x))%Q
  end.

(** [x * y] on Numbers *)
Definition Number_mul (x y : Q) : Q := binary64 (x * y).

(** The rational is a Number: rounding leaves it as it is. *)
Definition is_Number (x : Q) : Prop := (binary64 x == x)%Q.

(** The largest Number below 1: 1 - 2^-53. *)
Definition max_draw : Q := 9007199254740991 # 9007199254740992.

(** [console.error(msg, ...)] *)
Definition console_error (msg : string) : Eff unit := modify (add_event (EvConsoleError msg)).

(** [await sleep(ms)]: the handler resumes after a timer of [ms]
    milliseconds. *)
Definition sleep (ms : Z) : Eff unit := modify (add_event (EvSleep ms)).

(** ** Constants of the module *)

Definition simulatedResponses : list Result :=
  [ mkResult "healthy" "Healthy"
      "No disease detected. All crop samples appear normal and healthy."
      95 "green" None;
    mkResult "warning" "Possible Disease Detected"
      "Early signs of fungal infection detected. Recommend treatment intervention."
      78 "yellow" None;
    mkResult "critical" "Critical Disease Identified"
      "Severe disease markers detected. Immediate treatment recommended."
      88 "red" None;
    mkResult "mild" "Minor Disease Indicators"
      "Mild disease patterns detected. Monitor for progression."
      72 "blue" None;
    mkResult "moderate" "Moderate Risk Detected"
      "Moderate disease indicators present. Recommend specialist consultation."
      81 "orange" None ].

Definition invalidImageResponses : list string :=
  [ "Image quality too low for analysis";
    "Image appears to be synthetic or corrupted";
    "Unable to detect crop features in image";
    "Image dimensions incompatible with analysis model" ].

(** ** The validity classifier *)

Definition minSize : Z := 50 * 1024.

Definition maxSize : Z := 10 * 1024 * 1024.

(** The Number denoted by the literal [0.15]: the binary64 number nearest
    to 15/100, which is 5404319552844595 / 2^55. *)
Definition invalidChance : Q := 5404319552844595 # 36028797018963968.

Definition isValidCropImage (file : File) : Eff bool :=
  try_catch
    (fileSize <- statSync_size (path file) ;;
     if (fileSize <? minSize) || (fileSize >? maxSize) then ret false
     else
       r <- Math_random ;;
       if Qltb r invalidChance then ret false
       else ret true)
    (fun _ => ret false).

(** ** JSON

    [JSON.stringify] and [JSON.parse] on the values the program stores:
    objects (the list of their properties, in insertion order), arrays,
    strings, integer Numbers, booleans and null.  Both work on the
    characters of the text.  A text with a fraction or an exponent, or
    with a [\u] escape above 00ff, is outside the model: [parse] answers
    [None] for it, as it does for a text that [JSON.parse] rejects with a
    SyntaxError. *)
Module JSON.

#[warnings="-register-all"]
Inductive value :=
| JNull
| JBool (b : bool)
| JNumber (n : Z)
| JString (s : string)
| JArray (l : list value)
| JObject (l : list (string * value)).

(** *** stringify *)

Fixpoint uint_chars (d : Decimal.uint) : list ascii :=
  match d with
  | Decimal.Nil => []
  | Decimal.D0 d' => "0"%char :: uint_chars d'
  | Decimal.D1 d' => "1"%char :: uint_chars d'
  | Decimal.D2 d' => "2"%char :: uint_chars d'
  | Decimal.D3 d' => "3"%char :: uint_chars d'
  | Decimal.D4 d' => "4"%char :: uint_chars d'
  | Decimal.D5 d' => "5"%char :: uint_chars d'
  | Decimal.D6 d' => "6"%char :: uint_chars d'
  | Decimal.D7 d' => "7"%char :: uint_chars d'
  | Decimal.D8 d' => "8"%char :: uint_chars d'
  | Decimal.D9 d' => "9"%char :: uint_chars d'
  end.

(** An integer Number below 10^21 in magnitude prints as its decimal
    digits. *)
Definition number_chars (n : Z) : list ascii :=
  match n with
  | Z0 => ["0"%char]
  | Zpos p => uint_chars (Pos.to_uint p)
  | Zneg p => "-"%char :: uint_chars (Pos.to_uint p)
  end.

Definition hex_digit (n : N) : ascii :=
  ascii_of_N (if (n <? 10)%N then 48 + n else 87 + n).

(** QuoteJSONString, one character. *)
Definition escape_char (c : ascii) : list ascii :=
  if Ascii.eqb c "034" then ["\"%char; "034"%char]
  else if Ascii.eqb c "\" then ["\"%char; "\"%char]
  else if Ascii.eqb c "008" then ["\"%char; "b"%char]
  else if Ascii.eqb c "012" then ["\"%char; "f"%char]
  else if Ascii.eqb c "010" then ["\"%char; "n"%char]
  else if Ascii.eqb c "013" then ["\"%char; "r"%char]
  else if Ascii.eqb c "009" then ["\"%char; "t"%char]
  else if (N_of_ascii c <? 32)%N then
    ["\"%char; "u"%char; "0"%char; "0"%char;
     hex_digit (N_of_ascii c / 16); hex_digit (N_of_ascii c mod 16)]
  else [c].

Fixpoint escape (s : string) : list ascii :=
  match s with
  | EmptyString => []
  | String c s' => (escape_char c ++ escape s')%list
  end.

Definition quote (s : string) : list ascii :=
  ("034"%char :: escape s ++ ["034"%char])%list.

(** The texts of the elements with a comma between them. *)
Fixpoint join_comma (texts : list (list ascii)) : list ascii :=
  match texts with
  | [] => []
  | [t] => t
  | t :: texts' => (t ++ ","%char :: join_comma texts')%list
  end.

Fixpoint emit (v : value) : list ascii :=
  match v with
  | JNull => ["n"; "u"; "l"; "l"]%char
  | JBool true => ["t"; "r"; "u"; "e"]%char
  | JBool false => ["f"; "a"; "l"; "s"; "e"]%char
  | JNumber n => number_chars n
  | JString s => quote s
  | JArray l => ("["%char :: join_comma (map emit l) ++ ["]"%char])%list
  | JObject l =>
      ("{"%char
       :: join_comma (map (fun kv => quote (fst kv) ++ ":"%char :: emit (snd kv)) l)
       ++ ["}"%char])%list
  end.

Definition stringify (v : value) : string := string_of_list_ascii (emit v).

(** *** parse *)

Definition is_ws (c : ascii) : bool :=
  Ascii.eqb c " " || Ascii.eqb c "009" || Ascii.eqb c "010" || Ascii.eqb c "013".

Fixpoint skip_ws (s : list ascii) : list ascii :=
  match s with
  | c :: r => if is_ws c then skip_ws r else s
  | [] => []
  end.

(** [strip p s]: the rest of [s] after the prefix [p]. *)
Fixpoint strip (p s : list ascii) : option (list ascii) :=
  match p, s with
  | [], _ => Some s
  | a :: p', b :: s' => if Ascii.eqb a b then strip p' s' else None
  | _ :: _, [] => None
  end.

Definition digit_of (c : ascii) : option (Decimal.uint -> Decimal.uint) :=
  if Ascii.eqb c "0" then Some Decimal.D0
  else if Ascii.eqb c "1" then Some Decimal.D1
  else if Ascii.eqb c "2" then Some Decimal.D2
  else if Ascii.eqb c "3" then Some Decimal.D3
  else if Ascii.eqb c "4" then Some Decimal.D4
  else if Ascii.eqb c "5" then Some Decimal.D5
  else if Ascii.eqb c "6" then Some Decimal.D6
  else if Ascii.eqb c "7" then Some Decimal.D7
  else if Ascii.eqb c "8" then Some Decimal.D8
  else if Ascii.eqb c "9" then Some Decimal.D9
  else None.

(** The longest run of digits at the head of [s]. *)
Fixpoint read_uint (s : list ascii) : Decimal.uint * list ascii :=
  match s with
  | c :: r =>
      match digit_of c with
      | Some d => let (u, r') := read_uint r in (d u, r')
      | None => (Decimal.Nil, s)
      end
  | [] => (Decimal.Nil, [])
  end.

Definition starts_fraction_or_exponent (s : list ascii) : bool :=
  match s with
  | c :: _ => Ascii.eqb c "." || Ascii.eqb c "e" || Ascii.eqb c "E"
  | [] => false
  end.

(** An optional minus sign, then either a single 0 or a run of digits that
    does not begin with 0.  The text -0 reads as 0. *)
Definition parse_number (s : list ascii) : option (value * list ascii) :=
  let (negative, s1) :=
    match s with
    | c :: r => if Ascii.eqb c "-" then (true, r) else (false, s)
    | [] => (false, s)
    end in
  let (u, rest) := read_uint s1 in
  match u with
  | Decimal.Nil => None
  | Decimal.D0 (Decimal.Nil) =>
      if starts_fraction_or_exponent rest then None else Some (JNumber 0, rest)
  | Decimal.D0 _ => None
  | _ =>
      if starts_fraction_or_exponent rest then None
      else Some (JNumber (if negative then - Z.of_uint u else Z.of_uint u), rest)
  end.

Definition hex_value (c : ascii) : option N :=
  let n := N_of_ascii c in
  if ((48 <=? n) && (n <=? 57))%N then Some (n - 48)%N
  else if ((97 <=? n) && (n <=? 102))%N then Some (n - 87)%N
  else if ((65 <=? n) && (n <=? 70))%N then Some (n - 55)%N
  else None.

Definition hex4 (a b c d : ascii) : option N :=
  match hex_value a, hex_value b, hex_value c, hex_value d with
  | Some x, Some y, Some z, Some t => Some (((x * 16 + y) * 16 + z) * 16 + t)%N
  | _, _, _, _ => None
  end.

Definition unescape (c : ascii) : option ascii :=
  if Ascii.eqb c "034" then Some "034"%char
  else if Ascii.eqb c "\" then Some "\"%char
  else if Ascii.eqb c "/" then Some "/"%char
  else if Ascii.eqb c "b" then Some "008"%char
  else if Ascii.eqb c "f" then Some "012"%char
  else if Ascii.eqb c "n" then Some "010"%char
  else if Ascii.eqb c "r" then Some "013"%char
  else if Ascii.eqb c "t" then Some "009"%char
  else None.

Definition cons_char (c : ascii) (p : option (string * list ascii)) :
  option (string * list ascii) :=
  match p with
  | Some (str, r) => Some (String c str, r)
  | None => None
  end.

(** The characters of a string after its opening quote, up to and
    including the closing one. *)
Fixpoint parse_string (s : list ascii) : option (string * list ascii) :=
  match s with
  | [] => None
  | c :: r =>
      if Ascii.eqb c "034" then Some (EmptyString, r)
      else if Ascii.eqb c "\" then
        match r with
        | [] => None
        | e :: r1 =>
            if Ascii.eqb e "u" then
              match r1 with
              | h1 :: h2 :: h3 :: h4 :: r2 =>
                  match hex4 h1 h2 h3 h4 with
                  | Some code =>
                      if (code <? 256)%N
                      then cons_char (ascii_of_N code) (parse_string r2)
                      else None
                  | None => None
                  end
              | _ => None
              end
            else
              match unescape e with
              | Some c' => cons_char c' (parse_string r1)
              | None => None
              end
        end
      else if (N_of_ascii c <? 32)%N then None
      else cons_char c (parse_string r)
  end.

(** Defining property [k] of an object: an existing property keeps its
    place and takes the new value, a new one goes last. *)
Fixpoint set_property (o : list (string * value)) (k : string) (v : value) :
  list (string * value) :=
  match o with
  | [] => [(k, v)]
  | (k', v') :: o' =>
      if String.eqb k' k then (k', v) :: o' else (k', v') :: set_property o' k v
  end.

Definition build_object (ms : list (string * value)) : list (string * value) :=
  fold_left (fun o kv => set_property o (fst kv) (snd kv)) ms [].

Fixpoint parse_value (fuel : nat) (s : list ascii) : option (value * list ascii) :=
  match fuel with
  | O => None
  | S fuel' =>
      match skip_ws s with
      | [] => None
      | c :: r =>
          if Ascii.eqb c "n" then
            match strip ["u"; "l"; "l"]%char r with
            | Some r' => Some (JNull, r')
            | None => None
            end
          else if Ascii.eqb c "t" then
            match strip ["r"; "u"; "e"]%char r with
            | Some r' => Some (JBool true, r')
            | None => None
            end
          else if Ascii.eqb c "f" then
            match strip ["a"; "l"; "s"; "e"]%char r with
            | Some r' => Some (JBool false, r')
            | None => None
            end
          else if Ascii.eqb c "034" then
            match parse_string r with
            | Some (str, r') => Some (JString str, r')
            | None => None
            end
          else if Ascii.eqb c "[" then
            match skip_ws r with
            | c' :: r' =>
                if Ascii.eqb c' "]" then Some (JArray [], r')
                else
                  match parse_elements fuel' r with
                  | Some (l, r'') => Some (JArray l, r'')
                  | None => None
                  end
            | [] => None
            end
          else if Ascii.eqb c "{" then
            match skip_ws r with
            | c' :: r' =>
                if Ascii.eqb c' "}" then Some (JObject [], r')
                else
                  match parse_members fuel' r with
                  | Some (l, r'') => Some (JObject (build_object l), r'')
                  | None => None
                  end
            | [] => None
            end
          else parse_number (c :: r)
      end
  end

with parse_elements (fuel : nat) (s : list ascii) : option (list value * list ascii) :=
  match fuel with
  | O => None
  | S fuel' =>
      match parse_value fuel' s with
      | Some (v, r) =>
          match skip_ws r with
          | c :: r' =>
              if Ascii.eqb c "," then
                match parse_elements fuel' r' with
                | Some (l, r'') => Some (v :: l, r'')
                | None => None
                end
              else if Ascii.eqb c "]" then Some ([v], r')
              else None
          | [] => None
          end
      | None => None
      end
  end

with parse_members (fuel : nat) (s : list ascii) :
  option (list (string * value) * list ascii) :=
  match fuel with
  | O => None
  | S fuel' =>
      match skip_ws s with
      | q :: r0 =>
          if Ascii.eqb q "034" then
            match parse_string r0 with
            | Some (k, r1) =>
                match skip_ws r1 with
                | colon :: r2 =>
                    if Ascii.eqb colon ":" then
                      match parse_value fuel' r2 with
                      | Some (v, r3) =>
                          match skip_ws r3 with
                          | c :: r4 =>
                              if Ascii.eqb c "," then
                                match parse_members fuel' r4 with
                                | Some (l, r5) => Some ((k, v) :: l, r5)
                                | None => None
                                end
                              else if Ascii.eqb c "}" then Some ([(k, v)], r4)
                              else None
                          | [] => None
                          end
                      | None => None
                      end
                    else None
                | [] => None
                end
            | None => None
            end
          else None
      | [] => None
      end
  end.

(** The whole text is one value, with white space around it allowed. *)
Definition parse (text : string) : option value :=
  let s := list_ascii_of_string text in
  match parse_value (S (List.length s)) s with
  | Some (v, r) => match skip_ws r with [] => Some v | _ => None end
  | None => None
  end.

End JSON.


(** ** Objects of the program as JSON values *)

Import JSON.

(** The own properties of a step object, in the order the literal gives
    them. *)
Definition Step_value (s : Step) : value :=
  JObject [("step", JString (step s));
           ("completed", JBool (completed s));
           ("duration", JNumber (duration s))].

(** The own properties of a result object: the five of the literal, then
    [processingSteps] when it has been set. *)
Definition Result_value (r : Result) : value :=
  JObject ([("status", JString (status r));
            ("title", JString (title r));
            ("message", JString (message r));
            ("confidence", JNumber (confidence r));
            ("color", JString (color r))]
           ++ match processingSteps r with
              | Some steps => [("processingSteps", JArray (map Step_value steps))]
              | None => []
              end)%list.

(** [String(n)] for an integer Number. *)
Definition Number_toString (n : Z) : string := string_of_list_ascii (number_chars n).

(** [String(x)] inside a template literal, for a value that is a string or
    undefined. *)
Definition template (x : option string) : string :=
  match x with
  | Some s => s
  | None => "undefined"
  end.

(** ** References and arrays *)

(** The variable [result] holds either the object literal the handler has
    just built or one of the objects of [simulatedResponses]. *)
Inductive Ref :=
| Fresh (o : Result)
| Shared (i : nat).

Definition deref (c : list Result) (r : Ref) : option Result :=
  match r with
  | Fresh o => Some o
  | Shared i => c !! i
  end.

(** [a[k]] for an array and an integer Number: undefined out of range. *)
Definition array_get {A} (a : list A) (k : Z) : option A :=
  if k <? 0 then None else a !! Z.to_nat k.

Definition set_processingSteps (steps : list Step) (o : Result) : Result :=
  mkResult (status o) (title o) (message o) (confidence o) (color o) (Some steps).

(** [target.processingSteps = steps], where [target] is undefined or the
    i-th object of [simulatedResponses]: the object itself is written.
    The value is the index of the object written. *)
Definition assign_processingSteps (target : option nat) (steps : list Step) : Eff nat :=
  match target with
  | None =>
      throw (JsError "TypeError"
               "Cannot set properties of undefined (setting 'processingSteps')")
  | Some i =>
      modify (fun w => set_catalog (alter (set_processingSteps steps) i (catalog w)) w) ;;;
      ret i
  end.

(** ** The analysis step *)

Definition getRandomResponse : Eff (option nat) :=
  r <- Math_random ;;
  c <- get catalog ;;
  let k := Math_floor (Number_mul r (inject_Z (Z.of_nat (length c)))) in
  ret (match array_get c k with
       | Some _ => Some (Z.to_nat k)
       | None => None
       end).

Definition getRandomInvalidImageMessage : Eff (option string) :=
  r <- Math_random ;;
  ret (array_get invalidImageResponses
         (Math_floor (Number_mul r (inject_Z (Z.of_nat (length invalidImageResponses)))))).

Definition invalid_steps : list Step :=
  [ mkStep "Image Recognition" true 3000;
    mkStep "Crop Detection" false 0 ].

Definition valid_steps : list Step :=
  [ mkStep "Image Recognition" true 3000;
    mkStep "Crop Detection" true 4000;
    mkStep "Disease Analysis" true 8000 ].

(** Lines 167-192 of the handler: the values of [result] and [isInvalid]
    once the conditional has run. *)
Definition analyze (image1Valid image2Valid : bool) : Eff (Ref * bool) :=
  if negb image1Valid || negb image2Valid then
    msg <- (if negb image1Valid
            then (p <- getRandomInvalidImageMessage ;; ret ("Sample 1: " ++ template p))
            else (p <- getRandomInvalidImageMessage ;; ret ("Sample 2: " ++ template p))) ;;
    ret (Fresh (mkResult "invalid" "Invalid Image Detected" msg 0 "red"
                  (Some invalid_steps)),
         true)
  else
    target <- getRandomResponse ;;
    i <- assign_processingSteps target valid_steps ;;
    ret (Shared i, false).

(** Reading the object a reference points to.  The array never shrinks, so
    a reference to one of its objects always has its object; the other
    case is there for totality. *)
Definition read (r : Ref) : Eff Result :=
  c <- get catalog ;;
  match deref c r with
  | Some o => ret o
  | None => throw (JsError "ReferenceError" "no such object")
  end.

(** [JSON.stringify(result)] *)
Definition JSON_stringify (r : Ref) : Eff string :=
  o <- read r ;;
  ret (stringify (Result_value o)).

(** ** The log store *)

(** [db.run('INSERT INTO detection_logs (image1_name, image2_name, result)
    VALUES (?, ?, ?)', ...)]: what the callback gets, [None] for an error
    and [Some lastID] otherwise.  The id is the AUTOINCREMENT one and
    [created_at] takes its default. *)
Definition db_run_insert (image1 image2 resultText : string) : Eff (option Z) :=
  modify (add_event (EvInsert image1 image2 resultText)) ;;;
  err <- ask insert_error ;;
  if err then ret None
  else
    now <- ask CURRENT_TIMESTAMP ;;
    seq <- get sqlite_sequence ;;
    modify (fun w =>
      set_table (detection_logs w ++ [mkRow (seq + 1) image1 image2 resultText now])%list
                (seq + 1) w) ;;;
    ret (Some (seq + 1)).

(** [ORDER BY created_at DESC]: the stored timestamps are compared as
    text.  SQL leaves the order of rows with equal timestamps open; here
    they stay in insertion order. *)
Fixpoint insert_desc (r : Row) (l : list Row) : list Row :=
  match l with
  | [] => [r]
  | x :: l' =>
      if String.leb (created_at x) (created_at r) then r :: l
      else x :: insert_desc r l'
  end.

Definition order_by_created_at_desc (rows : list Row) : list Row :=
  fold_right insert_desc [] rows.

(** [SELECT * FROM detection_logs ORDER BY created_at DESC LIMIT 10] *)
Definition select_recent (rows : list Row) : list Row :=
  firstn 10 (order_by_created_at_desc rows).

(** ** Responses *)

(** A row with its [result] parsed: [{...row, result: JSON.parse(row.result)}]. *)
Record HistoryEntry := mkHistoryEntry {
  h_id : Z;
  h_image1_name : string;
  h_image2_name : string;
  h_result : value;
  h_created_at : string
}.

Inductive Body :=
(** [{success: false, error}] *)
| ErrorBody (error : string)
(** [{success: true, data: {id, images, result, timestamp}}]; the
    timestamp is kept as the clock reading it renders. *)
| DetectBody (id : Z) (images : list string) (result : value) (timestamp : Z)
(** [{success: true, data: history}] *)
| HistoryBody (data : list HistoryEntry)
(** [{status: 'ok', timestamp}] *)
| HealthBody (timestamp : Z)
(** the page of Express's default error handler *)
| ErrorPage (e : Exn).

Record Response := mkResponse {
  statusCode : Z;
  body : Body
}.

(** ** POST /api/detect: the handler *)

Definition file_count_error : Response :=
  mkResponse 400 (ErrorBody "Exactly 2 images are required for disease detection").

(** [files] is [req.files]: [None] when multer has not set it.  The test
    [!req.files || req.files.length !== 2] and the destructuring
    [const [image1, image2] = req.files] are the match on [files]: only a
    list of exactly two files gets past the test. *)
Definition detect_handler (files : option (list File)) : Eff Response :=
  try_catch
    (match files with
     | Some [image1; image2] =>
         image1Valid <- isValidCropImage image1 ;;
         image2Valid <- isValidCropImage image2 ;;
         analysis <- analyze image1Valid image2Valid ;;
         let (result, isInvalid) := analysis in
         resultText <- JSON_stringify result ;;
         sleep (if isInvalid then 7000 else 15000) ;;;
         inserted <- db_run_insert (filename image1) (filename image2) resultText ;;
         match inserted with
         | None =>
             console_error "Error logging detection:" ;;;
             ret (mkResponse 500 (ErrorBody "Failed to log detection"))
         | Some lastID =>
             timestamp <- Date_now ;;
             o <- read result ;;
             ret (mkResponse 200
                    (DetectBody lastID
                       ["/uploads/" ++ filename image1; "/uploads/" ++ filename image2]
                       (Result_value o) timestamp))
         end
     | _ => ret file_count_error
     end)
    (fun _ =>
       console_error "Detection error:" ;;;
       ret (mkResponse 500 (ErrorBody "Internal server error"))).

(** ** GET /api/history and GET /api/health *)

Definition entry_of_row (row : Row) : Eff HistoryEntry :=
  match parse (result row) with
  | Some v =>
      ret (mkHistoryEntry (id row) (image1_name row) (image2_name row) v (created_at row))
  | None => throw (JsError "SyntaxError" "Unexpected token in JSON")
  end.

(** [rows.map(f)] for an [f] that may throw. *)
Fixpoint map_eff {A B} (f : A -> Eff B) (l : list A) : Eff (list B) :=
  match l with
  | [] => ret []
  | x :: l' =>
      y <- f x ;;
      ys <- map_eff f l' ;;
      ret (y :: ys)
  end.

Definition history_handler : Eff Response :=
  modify (add_event EvSelect) ;;;
  err <- ask select_error ;;
  if err then ret (mkResponse 500 (ErrorBody "Failed to fetch history"))
  else
    rows <- get (fun w => select_recent (detection_logs w)) ;;
    history <- map_eff entry_of_row rows ;;
    ret (mkResponse 200 (HistoryBody history)).

Definition health_handler : Eff Response :=
  timestamp <- Date_now ;;
  ret (mkResponse 200 (HealthBody timestamp)).

(** ** Image intake: [upload.array('images', 2)]

    multer is a dependency of the program, not part of it; what follows is
    the behaviour of multer 1.4.5-lts on busboy 1.x for the options the
    program passes.  busboy reports each part that has a file name with
    the base name of that name and the content type in lower case; multer
    drops a part whose name is then empty.  Files are taken in the order
    of the request.  A file in a field other than the named one, or one
    more than [maxCount], ends the upload with the MulterError
    LIMIT_UNEXPECTED_FILE; then the program's [fileFilter] runs, then the
    storage engine names and writes the file, and a file that reaches
    [limits.fileSize] bytes ends the upload with LIMIT_FILE_SIZE.  An
    upload that ends with an error never reaches the route's handler:
    Express passes the error to its default error handler. *)

(** A part of a multipart request that has a file name, as it is sent:
    the field's name, the [filename] parameter, the media type of the
    Content-Type header and the number of bytes of the content. *)
Record Part := mkPart {
  part_fieldname : string;
  part_filename : string;
  part_contentType : string;
  part_size : Z
}.

Definition is_separator (c : ascii) : bool := Ascii.eqb c "/" || Ascii.eqb c "\".

Fixpoint has_separator (s : string) : bool :=
  match s with
  | EmptyString => false
  | String c s' => is_separator c || has_separator s'
  end.

(** What follows the last slash or backslash. *)
Fixpoint last_segment (s : string) : string :=
  match s with
  | EmptyString => EmptyString
  | String c s' =>
      if has_separator s' then last_segment s'
      else if is_separator c then s' else s
  end.

(** busboy's [basename]: the last segment, and nothing for a dot or two. *)
Definition basename (p : string) : string :=
  let n := last_segment p in
  if String.eqb n ".." || String.eqb n "." then EmptyString else n.

(** [toLowerCase] on an ASCII string. *)
Definition lower (c : ascii) : ascii :=
  if (65 <=? N_of_ascii c)%N && (N_of_ascii c <=? 90)%N
  then ascii_of_N (N_of_ascii c + 32) else c.

Fixpoint toLowerCase (s : string) : string :=
  match s with
  | EmptyString => EmptyString
  | String c s' => String (lower c) (toLowerCase s')
  end.

(** [file.originalname] and [file.mimetype], as busboy reports them. *)
Definition part_originalname (p : Part) : string := basename (part_filename p).

Definition part_mimetype (p : Part) : string := toLowerCase (part_contentType p).

Inductive RequestBody :=
| NotMultipart
| Multipart (parts : list Part).

(** The files of a submission: the parts multer does not drop. *)
Definition file_parts (b : RequestBody) : list Part :=
  match b with
  | NotMultipart => []
  | Multipart parts =>
      List.filter (fun p => negb (String.eqb (part_originalname p) EmptyString)) parts
  end.

(** [limits.fileSize] *)
Definition fileSize : Z := 10 * 1024 * 1024.

(** [path.join(a, b)] for two plain segments. *)
Definition join (a b : string) : string := a ++ "/" ++ b.

Definition uploadsDir : Eff string :=
  d <- ask dirname ;;
  ret (join d "uploads").

(** The [filename] callback of the disk storage. *)
Definition storage_filename (originalname : string) : Eff string :=
  now <- Date_now ;;
  r <- Math_random ;;
  let uniqueSuffix :=
    Number_toString now ++ "-"
    ++ Number_toString (Math_round (Number_mul r (inject_Z 1000000000))) in
  ret (uniqueSuffix ++ "-" ++ originalname).

(** The [fileFilter] callback. *)
Definition fileFilter (p : Part) : Eff bool :=
  if String.prefix "image/" (part_mimetype p) then ret true
  else throw (JsError "Error" "Only image files are allowed!").

Fixpoint accept_files (name : string) (filesLeft : nat) (parts : list Part) {struct parts} :
  Eff (list File) :=
  match parts with
  | [] => ret []
  | p :: rest =>
      if negb (String.eqb (part_fieldname p) name) then
        throw (JsError "MulterError" "Unexpected field")
      else
        match filesLeft with
        | O => throw (JsError "MulterError" "Unexpected field")
        | S filesLeft' =>
            fileFilter p ;;;
            destination <- uploadsDir ;;
            stored <- storage_filename (part_originalname p) ;;
            if part_size p >=? fileSize then throw (JsError "MulterError" "File too large")
            else
              files <- accept_files name filesLeft' rest ;;
              ret (mkFile (part_fieldname p) (part_originalname p) (part_mimetype p)
                          (part_size p) stored (join destination stored) :: files)
        end
  end.

(** [upload.array(name, maxCount)]: the value of [req.files] when the
    middleware calls [next()]. *)
Definition upload_array (name : string) (maxCount : nat) (b : RequestBody) :
  Eff (option (list File)) :=
  match b with
  | NotMultipart => ret None
  | Multipart _ =>
      files <- accept_files name maxCount (file_parts b) ;;
      ret (Some files)
  end.

(** Express's default error handler: an error without a status answers
    500 with an error page. *)
Definition default_error_handler (e : Exn) : Eff Response :=
  ret (mkResponse 500 (ErrorPage e)).

(** ** The routes *)

(** [app.post('/api/detect', upload.array('images', 2), handler)] *)
Definition post_api_detect (b : RequestBody) : Eff Response :=
  uploaded <- try_catch (files <- upload_array "images" 2 b ;; ret (inr files))
                        (fun e => ret (inl e)) ;;
  match uploaded with
  | inl e => default_error_handler e
  | inr files => detect_handler files
  end.

Inductive Request :=
| POST_api_detect (b : RequestBody)
| GET_api_history
| GET_api_health.

Definition serve (req : Request) : Eff Response :=
  match req with
  | POST_api_detect b => post_api_detect b
  | GET_api_history => history_handler
  | GET_api_health => health_handler
  end.

(** The store of a freshly started server. *)
Definition initial_world : World := mkWorld 0 0 simulatedResponses [] 0 [].

(** The store after a sequence of requests, each served in its own
    environment. *)
Fixpoint serve_all (reqs : list (Env * Request)) (w : World) : World :=
  match reqs with
  | [] => w
  | (env, req) :: reqs' => serve_all reqs' (snd (serve req env w))
  end.

(** ** Predicates the statements use *)

(** Every value of [Math.random()] is a Number in [0, 1). *)
Definition draws_in_range (env : Env) : Prop :=
  forall n,
    is_Number (Math_random_values env n) /\
    (0 <= Math_random_values env n)%Q /\ (Math_random_values env n < 1)%Q.

Definition erase_processingSteps (o : Result) : Result :=
  mkResult (status o) (title o) (message o) (confidence o) (color o) None.

(** The array [simulatedResponses] holds its five literals, each with or
    without a [processingSteps] property. *)
Definition catalog_ok (c : list Result) : Prop :=
  erase_processingSteps <$> c = simulatedResponses.

(** A Number that holds an integer exactly and prints as its digits. *)
Definition safe_integer (n : Z) : Prop := - 2 ^ 53 < n < 2 ^ 53.

Definition safe_result (r : Result) : Prop :=
  safe_integer (confidence r) /\
  match processingSteps r with
  | Some steps => Forall (fun s => safe_integer (duration s)) steps
  | None => True
  end.

(** The row was written by the detect handler: its [result] is the text
    of a result object. *)
Definition logged_result (row : Row) : Prop :=
  exists r, safe_result r /\ result row = stringify (Result_value r).

(** A fixed environment for examples: every draw is 1/2, every file has
    200 KiB, the clock stands still and the database works. *)
Definition example_env : Env :=
  mkEnv (fun _ => 1 # 2) (fun _ => Some 204800) (fun _ => 1700000000000)
        "/srv/app" "2024-01-01 10:00:00" false false.

Definition example_parts : list Part :=
  [ mkPart "images" "leaf1.jpg" "image/jpeg" 204800;
    mkPart "images" "leaf2.jpg" "image/jpeg" 307200 ].

(** The same two files and a third one. *)
Definition example_three_parts : list Part :=
  (example_parts ++ [mkPart "images" "leaf3.jpg" "image/jpeg" 204800])%list.

(** The answer to [example_parts] on a freshly started server. *)
Definition example_response : Response :=
  mkResponse 200
    (DetectBody 1
       ["/uploads/1700000000000-500000000-leaf1.jpg";
        "/uploads/1700000000000-500000000-leaf2.jpg"]
       (Result_value
          (mkResult "critical" "Critical Disease Identified"
             "Severe disease markers detected. Immediate treatment recommended."
             88 "red" (Some valid_steps)))
       1700000000000).

(** The same environment twenty seconds later. *)
Definition example_env_later : Env :=
  mkEnv (fun _ => 1 # 2) (fun _ => Some 204800) (fun _ => 1700000020000)
        "/srv/app" "2024-01-01 10:00:20" false false.

(** The result both example requests get. *)
Definition example_result : Result :=
  mkResult "critical" "Critical Disease Identified"
    "Severe disease markers detected. Immediate treatment recommended."
    88 "red" (Some valid_steps).

(** The store after two detections, twenty seconds apart. *)
Definition example_world : World :=
  serve_all [(example_env, POST_api_detect (Multipart example_parts));
             (example_env_later, POST_api_detect (Multipart example_parts))]
            initial_world.

Definition example_file (n : string) : File :=
  mkFile "images" n "image/jpeg" 204800 ("1700000000000-500000000-" ++ n)
         ("/srv/app/uploads/1700000000000-500000000-" ++ n).

(** The example environment with a database that refuses every statement. *)
Definition example_env_db_down : Env :=
  mkEnv (fun _ => 1 # 2) (fun _ => Some 204800) (fun _ => 1700000000000)
        "/srv/app" "2024-01-01 10:00:00" true true.


(** The example environment with every draw at the Number 0.6, which is
    5404319552844595 / 2^53. *)
Definition example_env_six_tenths : Env :=
  mkEnv (fun _ => 5404319552844595 # 9007199254740992) (fun _ => Some 204800)
        (fun _ => 1700000000000) "/srv/app" "2024-01-01 10:00:00" false false.

(** The example environment with a draw whose product with 10^9 lies
    just below a half: 2645140532454291 / 2^52. *)
Definition example_env_tie : Env :=
  mkEnv (fun _ => 2645140532454291 # 4503599627370496) (fun _ => Some 204800)
        (fun _ => 1700000000000) "/srv/app" "2024-01-01 10:00:00" false false.

(** The example environment with the draw next above 1/2. *)
Definition example_env_neighbour : Env :=
  mkEnv (fun _ => 4503599627370497 # 9007199254740992) (fun _ => Some 204800)
        (fun _ => 1700000000000) "/srv/app" "2024-01-01 10:00:00" false false.

(** A submission as a browser on another system may send it: a path in
    the file name, a content type in capitals, and the part of a file
    input left empty. *)
Definition example_sent_parts : list Part :=
  [ mkPart "images" "C:\photos\leaf1.JPG" "IMAGE/JPEG" 204800;
    mkPart "images" EmptyString "application/octet-stream" 0;
    mkPart "images" "field/leaf2.png" "image/png" 10485759 ].

(** Two files, the second of exactly 10 MiB. *)
Definition example_limit_parts : list Part :=
  [ mkPart "images" "leaf1.jpg" "image/jpeg" 204800;
    mkPart "images" "leaf2.jpg" "image/jpeg" 10485760 ].

(** ** Notions the proofs use *)

(** The index [Math.floor(Math.random() * 5)] of the next draw. *)
Definition drawn_index (env : Env) (w : World) : nat :=
  Z.to_nat (Math_floor (Number_mul (Math_random_values env (draws w)) (inject_Z 5))).

(** The row the handler inserts. *)
Definition logged_row (env : Env) (w : World) (image1 image2 : File) (o : Result) : Row :=
  mkRow (sqlite_sequence w + 1) (filename image1) (filename image2)
        (stringify (Result_value o)) (CURRENT_TIMESTAMP env).

(** The name the disk storage gives the k-th file of a request that
    started in store [w]. *)
Definition generated_filename (env : Env) (w : World) (k : nat) (originalname : string) :
  string :=
  (Number_toString (clock_values env (ticks w + k)%nat) ++ "-"
   ++ Number_toString
        (Math_round (Number_mul (Math_random_values env (draws w + k)%nat)
                                (inject_Z 1000000000))))
  ++ "-" ++ originalname.

(** What the intake checks of a file: right field, an image type, below
    the size limit. *)
Definition passes_checks (p : Part) : Prop :=
  part_fieldname p = "images" /\
  String.prefix "image/" (part_mimetype p) = true /\
  part_size p < fileSize.

(** A part the intake stores: it has a name and passes the checks. *)
Definition accepted_part (p : Part) : Prop :=
  part_originalname p <> EmptyString /\ passes_checks p.

Definition stored_file (env : Env) (w : World) (k : nat) (p : Part) : File :=
  mkFile (part_fieldname p) (part_originalname p) (part_mimetype p) (part_size p)
         (generated_filename env w k (part_originalname p))
         (join (join (dirname env) "uploads")
               (generated_filename env w k (part_originalname p))).

(** An object of the array either stays as it is or gets the three steps
    written into it. *)
Definition written (o o' : Result) : Prop :=
  o' = o \/ o' = set_processingSteps valid_steps o.

Definition catalog_le (c c' : list Result) : Prop := Forall2 written c c'.

(** From one store to a later one the array has only changed by writes. *)
Definition grows (w w' : World) : Prop := catalog_le (catalog w) (catalog w').

(** The array and the table are as they were. *)
Definition same_store (w w' : World) : Prop :=
  catalog w' = catalog w /\
  detection_logs w' = detection_logs w /\
  sqlite_sequence w' = sqlite_sequence w.

(** A computation that takes every store to one related to it by [R],
    whether it returns or throws. *)
Definition respects (R : World -> World -> Prop) {A} (m : Eff A) : Prop :=
  forall env w, R w (snd (m env w)).

(** The relations [respects] is used with: preorders that hold at least
    between stores with the same array and table. *)
Class StoreRel (R : World -> World -> Prop) : Prop := {
  store_rel_refl : forall w, R w w;
  store_rel_trans : forall w1 w2 w3, R w1 w2 -> R w2 w3 -> R w1 w3;
  store_rel_frame : forall w w', same_store w w' -> R w w'
}.

(** A triple for [Eff]: from a store satisfying [P] the computation
    returns a value and a store satisfying [Q], or throws in a store
    satisfying [E]. *)
Definition hoare {A} (P : World -> Prop) (m : Eff A)
  (Q : A -> World -> Prop) (E : World -> Prop) : Prop :=
  forall env w,
    P w ->
    match m env w with
    | (Return a, w') => Q a w'
    | (Throw _, w') => E w'
    end.

(** The text of a result object. *)
Definition logged_text (text : string) : Prop :=
  exists r, safe_result r /\ text = stringify (Result_value r).

(** What holds of every store the server reaches: the array holds the five
    literals, written or not, and every row of the table was written by
    the detect handler. *)
Definition store_ok (w : World) : Prop :=
  catalog_le simulatedResponses (catalog w) /\
  Forall logged_result (detection_logs w).

(** A fresh result object with integer Numbers, or an object of the array. *)
Definition ref_ok (r : Ref) : Prop :=
  match r with
  | Fresh o => safe_result o
  | Shared _ => True
  end.

(** *** About JSON texts *)

(** The text after a value: nothing, or a comma or a closing bracket. *)
Definition delimited (rest : list ascii) : Prop :=
  match rest with
  | [] => True
  | c :: _ => c = ","%char \/ c = "]"%char \/ c = "}"%char
  end.

(** The first character of a run of digits is a digit. *)
Definition is_digit (c : ascii) : bool :=
  match digit_of c with
  | Some _ => true
  | None => false
  end.

(** A value in which no object names a property twice. *)
#[warnings="-register-all"]
Inductive wf : value -> Prop :=
| wf_null : wf JNull
| wf_bool b : wf (JBool b)
| wf_number n : wf (JNumber n)
| wf_string s : wf (JString s)
| wf_array l : Forall wf l -> wf (JArray l)
| wf_object l : NoDup (map fst l) -> Forall (fun kv => wf (snd kv)) l -> wf (JObject l).

(** From one store to a later one the table has only grown at its end,
    and the new rows took the ids after the table's counter. *)
Definition log_extends (w w' : World) : Prop :=
  exists rows,
    detection_logs w' = (detection_logs w ++ rows)%list /\
    sqlite_sequence w' = sqlite_sequence w + Z.of_nat (length rows) /\
    map id rows = map (fun k => sqlite_sequence w + Z.of_nat k) (seq 1 (length rows)).

(** A text made of decimal digits only. *)
Fixpoint all_digits (s : string) : bool :=
  match s with
  | EmptyString => true
  | String c s' => is_digit c && all_digits s'
  end.

(** Rows and history entries from the newest to the oldest: each one is
    at least as new as the next. *)
Definition newer_row (a b : Row) : Prop :=
  String.leb (created_at b) (created_at a) = true.

Definition newer_entry (a b : HistoryEntry) : Prop :=
  String.leb (h_created_at b) (h_created_at a) = true.

(** The entry is the row with its [result] parsed, and what was parsed is
    a result object. *)
Definition entry_matches (row : Row) (e : HistoryEntry) : Prop :=
  h_id e = id row /\
  h_image1_name e = image1_name row /\
  h_image2_name e = image2_name row /\
  h_created_at e = created_at row /\
  parse (result row) = Some (h_result e) /\
  exists r, h_result e = Result_value r.

(** A character a number can begin with. *)
Definition number_start (c : ascii) : bool := is_digit c || Ascii.eqb c "-".

(** The property proved by induction on the value: with fuel for its
    text, the text parses back to the value and the rest is left. *)
Definition parses (v : value) : Prop :=
  forall fuel rest,
    delimited rest -> (length (emit v) <= fuel)%nat ->
    parse_value fuel (emit v ++ rest) = Some (v, rest).

Definition member_text (kv : string * value) : list ascii :=
  quote (fst kv) ++ ":"%char :: emit (snd kv).


(** * Properties *)

(** ** Arithmetic of draws and array indexes *)

Lemma Qltb_true (x y : Q) : Qltb x y = true <-> (x < y)%Q.
Proof.
  unfold Qltb. destruct (Qlt_le_dec x y) as [Hlt | Hle]; split; intro H; try easy.
  exfalso. exact (Qle_not_lt _ _ Hle H).
Qed.

Lemma Qltb_false (x y : Q) : Qltb x y = false <-> (y <= x)%Q.
Proof.
  unfold Qltb. destruct (Qlt_le_dec x y) as [Hlt | Hle]; split; intro H; try easy.
  exfalso. exact (Qle_not_lt _ _ H Hlt).
Qed.

(** *** Powers of two and rounding *)

Section Number_facts.
Local Open Scope Q_scope.

Lemma pow2_pos (k : Z) : 0 < pow2 k.
Proof. apply Qpower_0_lt. reflexivity. Qed.

Lemma pow2_add (a b : Z) : pow2 (a + b) == pow2 a * pow2 b.
Proof. apply Qpower_plus. discriminate. Qed.

Lemma pow2_Z (k : Z) : (0 <= k)%Z -> pow2 k == inject_Z (2 ^ k).
Proof. intro H. unfold pow2. rewrite (Zpower_Qpower 2 k H). reflexivity. Qed.

Lemma pow2_lt (a b : Z) : (a < b)%Z -> pow2 a < pow2 b.
Proof. intro H. apply Qpower_lt_compat_l; [exact H | reflexivity]. Qed.

Lemma pow2_le (a b : Z) : (a <= b)%Z -> pow2 a <= pow2 b.
Proof. intro H. apply Qpower_le_compat_l; [exact H | discriminate]. Qed.

Lemma pow2_lt_inv (a b : Z) : pow2 a < pow2 b -> (a < b)%Z.
Proof. intro H. apply (Qpower_lt_compat_l_inv 2); [exact H | reflexivity]. Qed.

Lemma Qmake_mult_den (x : Q) : x * inject_Z (Zpos (Qden x)) == inject_Z (Qnum x).
Proof. destruct x as [n d]. unfold Qeq, Qmult. simpl. lia. Qed.

(** The rational n/d lies strictly between 2^(a-b-1) and 2^(a-b+1), where
    a and b are the binary logarithms of n and d. *)
Lemma log2_quotient_bounds (x : Q) :
  0 < x ->
  pow2 (Z.log2 (Qnum x) - Z.log2 (Zpos (Qden x)) - 1) < x /\
  x < pow2 (Z.log2 (Qnum x) - Z.log2 (Zpos (Qden x)) + 1).
Proof.
  intro Hx.
  assert (Hn : (0 < Qnum x)%Z).
  { destruct x as [n d]. unfold Qlt in Hx. simpl in *. lia. }
  set (a := Z.log2 (Qnum x)). set (b := Z.log2 (Zpos (Qden x))).
  assert (Ha : (0 <= a)%Z) by apply Z.log2_nonneg.
  assert (Hb : (0 <= b)%Z) by apply Z.log2_nonneg.
  destruct (Z.log2_spec (Qnum x) Hn) as [Ha1 Ha2]. fold a in Ha1, Ha2.
  destruct (Z.log2_spec (Zpos (Qden x)) eq_refl) as [Hb1 Hb2]. fold b in Hb1, Hb2.
  pose proof (Qmake_mult_den x) as Hxd.
  assert (Hd : 0 < inject_Z (Zpos (Qden x))) by reflexivity.
  split.
  - (* 2^(a-b-1) * d < 2^(a-b-1) * 2^(b+1) = 2^a <= n = x * d *)
    apply (proj1 (Qmult_lt_r _ _ _ Hd)). rewrite Hxd.
    apply Qlt_le_trans with (pow2 (a - b - 1) * inject_Z (2 ^ Z.succ b)).
    + apply (proj2 (Qmult_lt_l _ _ _ (pow2_pos _))). rewrite <- Zlt_Qlt. exact Hb2.
    + rewrite <- (pow2_Z (Z.succ b)) by lia. rewrite <- pow2_add.
      replace (a - b - 1 + Z.succ b)%Z with a by lia.
      rewrite (pow2_Z a Ha). rewrite <- Zle_Qle. exact Ha1.
  - apply (proj1 (Qmult_lt_r _ _ _ Hd)). rewrite Hxd.
    apply Qlt_le_trans with (pow2 (a - b + 1) * inject_Z (2 ^ b)).
    + rewrite <- (pow2_Z b Hb). rewrite <- pow2_add.
      replace (a - b + 1 + b)%Z with (Z.succ a) by lia.
      rewrite (pow2_Z (Z.succ a)) by lia. rewrite <- Zlt_Qlt. exact Ha2.
    + apply (proj2 (Qmult_le_l _ _ _ (pow2_pos _))). rewrite <- Zle_Qle. exact Hb1.
Qed.

Lemma ilog2_bounds (x : Q) : 0 < x -> pow2 (ilog2 x) <= x /\ x < pow2 (ilog2 x + 1).
Proof.
  intro Hx. destruct (log2_quotient_bounds x Hx) as [Hlo Hhi].
  unfold ilog2. set (k := (Z.log2 (Qnum x) - Z.log2 (Zpos (Qden x)))%Z) in *.
  destruct (Qle_bool (pow2 k) x) eqn:Hk.
  - split; [apply Qle_bool_iff; exact Hk | exact Hhi].
  - split; [apply Qlt_le_weak; exact Hlo |].
    replace (k - 1 + 1)%Z with k by lia.
    apply Qnot_le_lt. intro H. apply Qle_bool_iff in H. congruence.
Qed.

Lemma ilog2_unique (x : Q) (k : Z) : pow2 k <= x -> x < pow2 (k + 1) -> ilog2 x = k.
Proof.
  intros Hlo Hhi.
  assert (Hx : 0 < x) by (apply Qlt_le_trans with (pow2 k); [apply pow2_pos | exact Hlo]).
  destruct (ilog2_bounds x Hx) as [Hlo' Hhi'].
  assert (H1 : (k < ilog2 x + 1)%Z).
  { apply pow2_lt_inv. apply Qle_lt_trans with x; assumption. }
  assert (H2 : (ilog2 x < k + 1)%Z).
  { apply pow2_lt_inv. apply Qle_lt_trans with x; assumption. }
  lia.
Qed.

(** *** Rounding to the nearest integer, ties to even *)

Lemma round_half_even_le (y : Q) (N : Z) : y <= inject_Z N -> (round_half_even y <= N)%Z.
Proof.
  intro H. unfold round_half_even.
  assert (Hf : (Qfloor y <= N)%Z).
  { rewrite <- (Qfloor_Z N). apply Qfloor_resp_le. exact H. }
  destruct (Z.eq_dec (Qfloor y) N) as [He | Hne].
  - assert (Hy : y - inject_Z (Qfloor y) <= 0).
    { rewrite He. unfold Qminus. rewrite <- (Qplus_opp_r (inject_Z N)).
      apply Qplus_le_compat; [exact H | apply Qle_refl]. }
    assert (Hc : (y - inject_Z (Qfloor y) ?= 1 # 2) = Lt).
    { apply Qlt_alt. apply Qle_lt_trans with 0; [exact Hy | reflexivity]. }
    rewrite Hc. exact Hf.
  - destruct (y - inject_Z (Qfloor y) ?= 1 # 2); [destruct (Z.even (Qfloor y)) | |]; lia.
Qed.

Lemma round_half_even_below_half (y : Q) (N : Z) :
  y < inject_Z N + (1 # 2) -> (round_half_even y <= N)%Z.
Proof.
  intro H. unfold round_half_even.
  assert (Hf : (Qfloor y <= N)%Z).
  { assert (Hlt : (Qfloor y < N + 1)%Z).
    { rewrite Zlt_Qlt. apply Qle_lt_trans with y; [apply Qfloor_le |].
      apply Qlt_trans with (inject_Z N + (1 # 2)); [exact H |].
      rewrite inject_Z_plus. apply Qplus_lt_r. reflexivity. }
    lia. }
  destruct (Z.eq_dec (Qfloor y) N) as [He | Hne].
  - assert (Hc : (y - inject_Z (Qfloor y) ?= 1 # 2) = Lt).
    { apply Qlt_alt. rewrite He. apply Qplus_lt_l with (z := inject_Z N).
      unfold Qminus. rewrite <- Qplus_assoc, (Qplus_comm (- inject_Z N)), Qplus_opp_r.
      rewrite Qplus_0_r, (Qplus_comm (1 # 2)). exact H. }
    rewrite Hc. exact Hf.
  - destruct (y - inject_Z (Qfloor y) ?= 1 # 2); [destruct (Z.even (Qfloor y)) | |]; lia.
Qed.

Lemma round_half_even_nonneg (y : Q) : 0 <= y -> (0 <= round_half_even y)%Z.
Proof.
  intro H. unfold round_half_even.
  assert (Hf : (0 <= Qfloor y)%Z).
  { change 0%Z with (Qfloor (inject_Z 0)). apply Qfloor_resp_le. exact H. }
  destruct (y - inject_Z (Qfloor y) ?= 1 # 2); [destruct (Z.even (Qfloor y)) | |]; lia.
Qed.

(** *** Rounding to binary64 *)

Lemma round_positive_binade (x : Q) (k : Z) :
  pow2 k <= x -> x < pow2 (k + 1) ->
  round_positive x =
    inject_Z (round_half_even (x / pow2 (Z.max (k - 52) (-1074))))
    * pow2 (Z.max (k - 52) (-1074)).
Proof.
  intros Hlo Hhi. unfold round_positive. rewrite (ilog2_unique x k Hlo Hhi). reflexivity.
Qed.

Lemma round_positive_nonneg (x : Q) : 0 < x -> 0 <= round_positive x.
Proof.
  intro Hx. unfold round_positive. apply Qmult_le_0_compat.
  - change 0 with (inject_Z 0). rewrite <- Zle_Qle. apply round_half_even_nonneg.
    apply Qlt_le_weak. apply Qlt_shift_div_l; [apply pow2_pos |].
    rewrite Qmult_0_l. exact Hx.
  - apply Qlt_le_weak, pow2_pos.
Qed.

(** Rounding does not cross a number of the grid: below [M * 2^t], a
    number whose own grid is at least as fine rounds to at most that. *)
Lemma round_positive_le_grid (x : Q) (M t : Z) :
  0 < x -> x <= inject_Z M * pow2 t -> x < pow2 (t + 53) -> (-1074 <= t)%Z ->
  round_positive x <= inject_Z M * pow2 t.
Proof.
  intros Hx Hle Hlt Ht.
  destruct (ilog2_bounds x Hx) as [Hlo _].
  assert (Hk : (ilog2 x < t + 53)%Z).
  { apply pow2_lt_inv. apply Qle_lt_trans with x; assumption. }
  unfold round_positive. set (e := Z.max (ilog2 x - 52) (-1074)).
  assert (He : (e <= t)%Z) by (unfold e; lia).
  assert (Hpow : pow2 t == inject_Z (2 ^ (t - e)) * pow2 e).
  { rewrite <- (pow2_Z (t - e)) by lia. rewrite <- pow2_add.
    replace (t - e + e)%Z with t by lia. reflexivity. }
  assert (Hy : (round_half_even (x / pow2 e) <= M * 2 ^ (t - e))%Z).
  { apply round_half_even_le. apply Qle_shift_div_r; [apply pow2_pos |].
    rewrite inject_Z_mult, <- Qmult_assoc, <- Hpow. exact Hle. }
  rewrite Hpow, Qmult_assoc, <- inject_Z_mult.
  apply Qmult_le_compat_r; [| apply Qlt_le_weak, pow2_pos].
  rewrite <- Zle_Qle. exact Hy.
Qed.

Lemma binary64_positive (x : Q) : 0 < x -> binary64 x = round_positive x.
Proof.
  intro Hx. unfold binary64.
  assert (Hc : (x ?= 0) = Gt) by (apply Qgt_alt; exact Hx).
  rewrite Hc. reflexivity.
Qed.

Lemma binary64_zero (x : Q) : x == 0 -> binary64 x = 0.
Proof.
  intro Hx. unfold binary64. apply Qeq_alt in Hx. rewrite Hx. reflexivity.
Qed.

Lemma binary64_nonneg (x : Q) : 0 <= x -> 0 <= binary64 x.
Proof.
  intro Hx. destruct (Qle_lt_or_eq _ _ Hx) as [Hlt | Heq].
  - rewrite (binary64_positive x Hlt). apply round_positive_nonneg. exact Hlt.
  - rewrite (binary64_zero x); [apply Qle_refl | symmetry; exact Heq].
Qed.

Lemma binary64_le_grid (x : Q) (M t : Z) :
  0 <= x -> x <= inject_Z M * pow2 t -> x < pow2 (t + 53) -> (-1074 <= t)%Z ->
  binary64 x <= inject_Z M * pow2 t.
Proof.
  intros Hx Hle Hlt Ht. destruct (Qle_lt_or_eq _ _ Hx) as [Hpos | Heq].
  - rewrite (binary64_positive x Hpos). apply round_positive_le_grid; assumption.
  - rewrite (binary64_zero x) by (symmetry; exact Heq).
    rewrite Heq. exact Hle.
Qed.

Lemma is_Number_below_one (r : Q) : is_Number r -> 0 <= r -> r < 1 -> r <= max_draw.
Proof.
  intros Hnum H0 H1.
  destruct (Qlt_le_dec r (1 # 2)) as [Hsmall | Hbig].
  - apply Qlt_le_weak. apply Qlt_trans with (1 # 2); [exact Hsmall | reflexivity].
  - assert (Hpos : 0 < r) by (apply Qlt_le_trans with (1 # 2); [reflexivity | exact Hbig]).
    unfold is_Number in Hnum. rewrite (binary64_positive r Hpos) in Hnum.
    rewrite (round_positive_binade r (-1)) in Hnum; [| exact Hbig | exact H1].
    change (Z.max (-1 - 52) (-1074)) with (-53)%Z in Hnum.
    set (M := round_half_even (r / pow2 (-53))) in *.
    assert (HM : (M < 2 ^ 53)%Z).
    { rewrite Zlt_Qlt. apply (proj1 (Qmult_lt_r _ _ _ (pow2_pos (-53)))).
      rewrite Hnum. apply Qlt_le_trans with 1; [exact H1 |].
      rewrite <- (pow2_Z 53) by lia. rewrite <- pow2_add. apply Qle_refl. }
    rewrite <- Hnum.
    apply Qle_trans with (inject_Z (2 ^ 53 - 1) * pow2 (-53)).
    + apply Qmult_le_compat_r; [| apply Qlt_le_weak, pow2_pos].
      rewrite <- Zle_Qle. lia.
    + vm_compute. discriminate.
Qed.

(** *** The three products of the program *)

Lemma floor_below (x : Q) (n : Z) : x < inject_Z n -> (Qfloor x < n)%Z.
Proof. intro H. rewrite Zlt_Qlt. apply Qle_lt_trans with x; [apply Qfloor_le | exact H]. Qed.

Lemma draw_times_5 (r : Q) :
  is_Number r -> 0 <= r -> r < 1 -> binary64 (r * inject_Z 5) < inject_Z 5.
Proof.
  intros Hnum H0 H1. pose proof (is_Number_below_one r Hnum H0 H1) as Hmax.
  assert (Hx0 : 0 <= r * inject_Z 5) by (apply Qmult_le_0_compat; [exact H0 | discriminate]).
  assert (Hx : r * inject_Z 5 <= max_draw * inject_Z 5).
  { apply Qmult_le_compat_r; [exact Hmax | discriminate]. }
  destruct (Qlt_le_dec (r * inject_Z 5) (pow2 2)) as [Hsmall | Hbig].
  - apply Qle_lt_trans with (inject_Z 1 * pow2 2); [| reflexivity].
    apply binary64_le_grid; [exact Hx0 | | | lia].
    + apply Qlt_le_weak. exact Hsmall.
    + apply Qlt_trans with (pow2 2); [exact Hsmall | reflexivity].
  - assert (Hpos : 0 < r * inject_Z 5).
    { apply Qlt_le_trans with (pow2 2); [reflexivity | exact Hbig]. }
    rewrite (binary64_positive _ Hpos).
    rewrite (round_positive_binade _ 2); [| exact Hbig |].
    2: { apply Qle_lt_trans with (max_draw * inject_Z 5); [exact Hx | reflexivity]. }
    change (Z.max (2 - 52) (-1074)) with (-50)%Z.
    apply Qle_lt_trans with (inject_Z (5 * 2 ^ 50 - 1) * pow2 (-50)); [| reflexivity].
    apply Qmult_le_compat_r; [| apply Qlt_le_weak, pow2_pos].
    rewrite <- Zle_Qle. apply round_half_even_below_half.
    apply Qlt_shift_div_r; [apply pow2_pos |].
    apply Qle_lt_trans with (max_draw * inject_Z 5); [exact Hx | reflexivity].
Qed.

Lemma draw_times_4 (r : Q) :
  is_Number r -> 0 <= r -> r < 1 -> binary64 (r * inject_Z 4) < inject_Z 4.
Proof.
  intros Hnum H0 H1. pose proof (is_Number_below_one r Hnum H0 H1) as Hmax.
  assert (Hx0 : 0 <= r * inject_Z 4) by (apply Qmult_le_0_compat; [exact H0 | discriminate]).
  assert (Hx : r * inject_Z 4 <= max_draw * inject_Z 4).
  { apply Qmult_le_compat_r; [exact Hmax | discriminate]. }
  apply Qle_lt_trans with (inject_Z (2 ^ 53 - 1) * pow2 (-51)); [| reflexivity].
  apply binary64_le_grid; [exact Hx0 | | | lia].
  - apply Qle_trans with (max_draw * inject_Z 4); [exact Hx | vm_compute; discriminate].
  - apply Qle_lt_trans with (max_draw * inject_Z 4); [exact Hx | reflexivity].
Qed.

Lemma floor_draw_range (r : Q) (n : Z) :
  is_Number r -> 0 <= r -> r < 1 -> n = 4%Z \/ n = 5%Z ->
  (0 <= Math_floor (Number_mul r (inject_Z n)) < n)%Z.
Proof.
  intros Hnum H0 H1 Hn. unfold Math_floor, Number_mul. split.
  - change 0%Z with (Qfloor (inject_Z 0)). apply Qfloor_resp_le.
    apply binary64_nonneg. apply Qmult_le_0_compat; [exact H0 |].
    destruct Hn as [-> | ->]; discriminate.
  - apply floor_below. destruct Hn as [-> | ->].
    + apply draw_times_4; assumption.
    + apply draw_times_5; assumption.
Qed.

Lemma round_draw_range (r : Q) :
  is_Number r -> 0 <= r -> r < 1 ->
  (0 <= Math_round (Number_mul r (inject_Z 1000000000)) <= 1000000000)%Z.
Proof.
  intros Hnum H0 H1. unfold Math_round, Number_mul.
  assert (Hx0 : 0 <= r * inject_Z 1000000000).
  { apply Qmult_le_0_compat; [exact H0 | discriminate]. }
  assert (Hx : r * inject_Z 1000000000 <= inject_Z 1000000000 * pow2 0).
  { rewrite (Qmult_comm (inject_Z 1000000000) (pow2 0)).
    apply Qmult_le_compat_r; [| discriminate].
    apply Qlt_le_weak. exact H1. }
  split.
  - change 0%Z with (Qfloor (inject_Z 0)). apply Qfloor_resp_le.
    apply Qle_trans with (binary64 (r * inject_Z 1000000000)).
    + apply binary64_nonneg. exact Hx0.
    + rewrite <- (Qplus_0_r (binary64 _)) at 1. apply Qplus_le_r. discriminate.
  - change 1000000000%Z with (Qfloor (inject_Z 1000000000 * pow2 0 + (1 # 2))) at 2.
    apply Qfloor_resp_le. apply Qplus_le_l.
    apply binary64_le_grid; [exact Hx0 | exact Hx | | lia].
    apply Qle_lt_trans with (inject_Z 1000000000 * pow2 0); [exact Hx | reflexivity].
Qed.

End Number_facts.

Lemma array_get_in_range {A} (a : list A) (k : Z) :
  0 <= k < Z.of_nat (length a) ->
  exists x, array_get a k = Some x /\ a !! Z.to_nat k = Some x.
Proof.
  intros [Hk0 Hk1]. unfold array_get.
  destruct (Z.ltb_spec k 0) as [Hneg | _]; [lia |].
  destruct (lookup_lt_is_Some_2 a (Z.to_nat k)) as [x Hx]; [lia |].
  exists x. split; assumption.
Qed.

(** ** The validity classifier *)

(** For a draw with 53 bits after the point, which is what engines
    return, being below the Number 0.15 is being below 15/100. *)
Lemma invalidChance_53_bits (k : Z) :
  (k # 2 ^ 53 < invalidChance)%Q <-> (k # 2 ^ 53 < 15 # 100)%Q.
Proof. unfold invalidChance, Qlt. simpl. lia. Qed.

Lemma isValidCropImage_unreadable (env : Env) (w : World) (file : File) :
  stat_size env (path file) = None ->
  isValidCropImage file env w = (Return false, w).
Proof.
  intro Hstat. unfold isValidCropImage, try_catch, bind, statSync_size.
  rewrite Hstat. reflexivity.
Qed.

Lemma isValidCropImage_out_of_bounds (env : Env) (w : World) (file : File) (n : Z) :
  stat_size env (path file) = Some n ->
  n < minSize \/ n > maxSize ->
  isValidCropImage file env w = (Return false, w).
Proof.
  intros Hstat Hn. unfold isValidCropImage, try_catch, bind, statSync_size.
  rewrite Hstat.
  replace ((n <? minSize) || (n >? maxSize)) with true; [reflexivity |].
  symmetry. apply orb_true_iff. destruct Hn as [Hlo | Hhi].
  - left. apply Z.ltb_lt. exact Hlo.
  - right. apply Z.gtb_lt. lia.
Qed.

Lemma isValidCropImage_within_bounds (env : Env) (w : World) (file : File) (n : Z) :
  stat_size env (path file) = Some n ->
  minSize <= n <= maxSize ->
  isValidCropImage file env w =
    (Return (negb (Qltb (Math_random_values env (draws w)) invalidChance)),
     set_draws (S (draws w)) w).
Proof.
  intros Hstat [Hlo Hhi]. unfold isValidCropImage, try_catch, bind, statSync_size.
  rewrite Hstat.
  replace ((n <? minSize) || (n >? maxSize)) with false.
  - unfold Math_random, ret.
    destruct (Qltb (Math_random_values env (draws w)) invalidChance); reflexivity.
  - symmetry. apply orb_false_iff. split.
    + apply Z.ltb_ge. exact Hlo.
    + rewrite Z.gtb_ltb. apply Z.ltb_ge. exact Hhi.
Qed.

(** The classifier always answers, whatever the file and the environment. *)
Lemma isValidCropImage_returns (env : Env) (w : World) (file : File) :
  exists b w', isValidCropImage file env w = (Return b, w').
Proof.
  destruct (stat_size env (path file)) as [n |] eqn:Hstat.
  - destruct (Z_lt_dec n minSize) as [Hlo | Hlo].
    + exists false, w. apply (isValidCropImage_out_of_bounds env w file n Hstat). now left.
    + destruct (Z_gt_dec n maxSize) as [Hhi | Hhi].
      * exists false, w. apply (isValidCropImage_out_of_bounds env w file n Hstat). now right.
      * eexists _, _. apply (isValidCropImage_within_bounds env w file n Hstat). lia.
  - exists false, w. apply isValidCropImage_unreadable. exact Hstat.
Qed.

(** C4: with the stored size read as [n], the classifier answers false
    whenever [n] is below 50 KiB or above 10 MiB, whatever the draw (none
    is made); for [n] within these bounds it makes one draw and answers
    false exactly when the draw is below [invalidChance] (the Number
    0.15), and true otherwise. *)
Theorem isValidCropImage_size_then_draw
  (env : Env) (w : World) (file : File) (n : Z) :
  stat_size env (path file) = Some n ->
  (n < 50 * 1024 \/ n > 10 * 1024 * 1024 ->
     isValidCropImage file env w = (Return false, w)) /\
  (50 * 1024 <= n <= 10 * 1024 * 1024 ->
     exists b,
       isValidCropImage file env w = (Return b, set_draws (S (draws w)) w) /\
       (b = false <-> (Math_random_values env (draws w) < invalidChance)%Q) /\
       (b = true <-> (invalidChance <= Math_random_values env (draws w))%Q)).
Proof.
  intro Hstat. split.
  - intro Hn. apply (isValidCropImage_out_of_bounds env w file n Hstat). exact Hn.
  - intro Hn. eexists. split.
    + apply (isValidCropImage_within_bounds env w file n Hstat). exact Hn.
    + rewrite negb_false_iff, negb_true_iff. split.
      * apply Qltb_true.
      * apply Qltb_false.
Qed.

Lemma isValidCropImage_size_then_draw_witness :
  stat_size example_env (path (example_file "leaf1.jpg")) = Some 204800 /\
  isValidCropImage (example_file "leaf1.jpg") example_env initial_world
    = (Return true, set_draws 1 initial_world).
Proof.
  split; [reflexivity |].
  destruct (isValidCropImage_size_then_draw example_env initial_world
              (example_file "leaf1.jpg") 204800 eq_refl) as [_ Hin].
  destruct Hin as [b [Hrun [_ Htrue]]]; [lia |].
  rewrite Hrun. f_equal. f_equal. apply Htrue. unfold Qle. simpl. lia.
Defined.

(** ** The analysis step *)

Lemma catalog_ok_length (c : list Result) : catalog_ok c -> length c = 5%nat.
Proof.
  intro Hc. rewrite <- (length_fmap erase_processingSteps c), Hc. reflexivity.
Qed.

(** No object of the array ever has the status [invalid]. *)
Lemma catalog_ok_status (c : list Result) (i : nat) (o : Result) :
  catalog_ok c -> c !! i = Some o -> status o <> "invalid".
Proof.
  intros Hc Hi.
  assert (He : simulatedResponses !! i = Some (erase_processingSteps o)).
  { rewrite <- Hc, list_lookup_fmap, Hi. reflexivity. }
  do 5 (destruct i as [| i];
        [apply (f_equal (fun x => status <$> x)) in He; simpl in He;
         injection He as He; rewrite <- He; discriminate |]).
  discriminate He.
Qed.

Lemma catalog_ok_alter (c : list Result) (steps : list Step) (i : nat) :
  catalog_ok c -> catalog_ok (alter (set_processingSteps steps) i c).
Proof.
  unfold catalog_ok. intro Hc.
  rewrite (list_fmap_alter erase_processingSteps (set_processingSteps steps) (fun x => x)).
  - rewrite Hc. clear Hc. revert i.
    induction simulatedResponses as [| x l IH]; intros [| i]; simpl; try reflexivity.
    f_equal. apply IH.
  - apply Forall_forall. intros o _. reflexivity.
Qed.

Lemma getRandomInvalidImageMessage_returns (env : Env) (w : World) :
  draws_in_range env ->
  exists phrase,
    In phrase invalidImageResponses /\
    getRandomInvalidImageMessage env w = (Return (Some phrase), set_draws (S (draws w)) w).
Proof.
  intro Hd. destruct (Hd (draws w)) as [Hn [H0 H1]].
  unfold getRandomInvalidImageMessage, bind, Math_random, ret.
  destruct (array_get_in_range invalidImageResponses
              (Math_floor (Number_mul (Math_random_values env (draws w))
                             (inject_Z (Z.of_nat (length invalidImageResponses))))))
    as [phrase [Hget Hlookup]].
  { apply floor_draw_range; [exact Hn | exact H0 | exact H1 | left; reflexivity]. }
  exists phrase. split.
  - apply list_elem_of_In. eapply list_elem_of_lookup_2. exact Hlookup.
  - rewrite Hget. reflexivity.
Qed.

Lemma getRandomResponse_returns (env : Env) (w : World) :
  draws_in_range env -> catalog_ok (catalog w) ->
  exists i o,
    catalog w !! i = Some o /\
    getRandomResponse env w = (Return (Some i), set_draws (S (draws w)) w).
Proof.
  intros Hd Hc. destruct (Hd (draws w)) as [Hn [H0 H1]].
  unfold getRandomResponse, bind, Math_random, get, ret. cbn [catalog set_draws].
  destruct (array_get_in_range (catalog w)
              (Math_floor (Number_mul (Math_random_values env (draws w))
                             (inject_Z (Z.of_nat (length (catalog w)))))))
    as [o [Hget Hlookup]].
  { rewrite (catalog_ok_length _ Hc).
    apply floor_draw_range; [exact Hn | exact H0 | exact H1 | right; reflexivity]. }
  eexists _, o. split; [exact Hlookup |].
  rewrite Hget. reflexivity.
Qed.

(** With an invalid file the step builds a fresh object and leaves the
    array alone. *)
Lemma analyze_invalid (env : Env) (w : World) (image1Valid image2Valid : bool) :
  draws_in_range env ->
  image1Valid = false \/ image2Valid = false ->
  exists phrase,
    In phrase invalidImageResponses /\
    analyze image1Valid image2Valid env w =
      (Return (Fresh (mkResult "invalid" "Invalid Image Detected"
                        ((if image1Valid then "Sample 2: " else "Sample 1: ") ++ phrase)
                        0 "red" (Some invalid_steps)),
               true),
       set_draws (S (draws w)) w).
Proof.
  intros Hd Hv.
  destruct (getRandomInvalidImageMessage_returns env w Hd) as [phrase [Hin Hrun]].
  exists phrase. split; [exact Hin |].
  unfold analyze.
  destruct image1Valid, image2Valid; simpl;
    try (destruct Hv; discriminate);
    unfold bind; rewrite Hrun; reflexivity.
Qed.

(** With two valid files the step returns one of the objects of the array,
    after writing [processingSteps] into it. *)
Lemma analyze_valid (env : Env) (w : World) :
  draws_in_range env -> catalog_ok (catalog w) ->
  exists i o,
    catalog w !! i = Some o /\
    analyze true true env w =
      (Return (Shared i, false),
       set_catalog (alter (set_processingSteps valid_steps) i (catalog w))
                   (set_draws (S (draws w)) w)).
Proof.
  intros Hd Hc.
  destruct (getRandomResponse_returns env w Hd Hc) as [i [o [Hi Hrun]]].
  exists i, o. split; [exact Hi |].
  unfold analyze. simpl. unfold bind. rewrite Hrun. reflexivity.
Qed.

(** C3: when at least one file is invalid the result has status [invalid]
    and its message is "Sample 1: " followed by one of the four rejection
    phrases when the first file is invalid (also when both are), and
    "Sample 2: " followed by one of them when only the second is. *)
Theorem analyze_invalid_message
  (env : Env) (w : World) (image1Valid image2Valid : bool) :
  draws_in_range env ->
  image1Valid = false \/ image2Valid = false ->
  exists o w' phrase,
    analyze image1Valid image2Valid env w = (Return (Fresh o, true), w') /\
    status o = "invalid" /\
    In phrase invalidImageResponses /\
    (image1Valid = false -> message o = "Sample 1: " ++ phrase) /\
    (image1Valid = true -> message o = "Sample 2: " ++ phrase).
Proof.
  intros Hd Hv.
  destruct (analyze_invalid env w image1Valid image2Valid Hd Hv) as [phrase [Hin Hrun]].
  eexists _, _, phrase. split; [exact Hrun |].
  split; [reflexivity |]. split; [exact Hin |].
  split; intros ->; reflexivity.
Qed.

Lemma example_env_draws : draws_in_range example_env.
Proof.
  intro n. split; [vm_compute; reflexivity |]. split; unfold Qle, Qlt; simpl; lia.
Defined.

Lemma analyze_invalid_message_witness :
  exists o w' phrase,
    analyze false false example_env initial_world = (Return (Fresh o, true), w') /\
    status o = "invalid" /\
    In phrase invalidImageResponses /\
    (false = false -> message o = "Sample 1: " ++ phrase) /\
    (false = true -> message o = "Sample 2: " ++ phrase).
Proof.
  apply (analyze_invalid_message example_env initial_world false false).
  - exact example_env_draws.
  - left. reflexivity.
Defined.

Example analyze_second_invalid :
  fst (analyze true false example_env initial_world) =
    Return (Fresh (mkResult "invalid" "Invalid Image Detected"
                     "Sample 2: Unable to detect crop features in image" 0 "red"
                     (Some invalid_steps)),
            true).
Proof. vm_compute. reflexivity. Qed.

(** C1: the analysis step always produces a result; if its status is
    [invalid] its confidence is 0 and it has exactly two steps, the first
    completed and the second not; otherwise it has exactly three steps,
    all completed. *)
Theorem analyze_result_steps
  (env : Env) (w : World) (image1Valid image2Valid : bool) :
  draws_in_range env -> catalog_ok (catalog w) ->
  exists r isInvalid w' o,
    analyze image1Valid image2Valid env w = (Return (r, isInvalid), w') /\
    deref (catalog w') r = Some o /\
    (status o = "invalid" ->
       confidence o = 0 /\
       exists s1 s2,
         processingSteps o = Some [s1; s2] /\
         completed s1 = true /\ completed s2 = false) /\
    (status o <> "invalid" ->
       exists s1 s2 s3,
         processingSteps o = Some [s1; s2; s3] /\
         completed s1 = true /\ completed s2 = true /\ completed s3 = true).
Proof.
  intros Hd Hc.
  destruct (bool_decide (image1Valid = true /\ image2Valid = true)) eqn:Hv.
  - apply bool_decide_eq_true in Hv. destruct Hv as [-> ->].
    destruct (analyze_valid env w Hd Hc) as [i [o [Hi Hrun]]].
    eexists _, _, _, (set_processingSteps valid_steps o).
    split; [exact Hrun |]. split.
    + simpl. rewrite list_lookup_alter_eq, Hi. reflexivity.
    + split.
      * intro Hs. exfalso. exact (catalog_ok_status _ _ _ Hc Hi Hs).
      * intros _. eexists _, _, _. split; [reflexivity |]. repeat split.
  - apply bool_decide_eq_false in Hv.
    assert (Hv' : image1Valid = false \/ image2Valid = false).
    { destruct image1Valid, image2Valid; auto. exfalso. apply Hv. split; reflexivity. }
    destruct (analyze_invalid env w image1Valid image2Valid Hd Hv') as [phrase [_ Hrun]].
    eexists _, _, _, _. split; [exact Hrun |]. split; [reflexivity |]. split.
    + intros _. split; [reflexivity |].
      eexists _, _. split; [reflexivity |]. split; reflexivity.
    + intro Hs. exfalso. apply Hs. reflexivity.
Qed.

Lemma initial_catalog_ok : catalog_ok (catalog initial_world).
Proof. reflexivity. Defined.

Lemma analyze_result_steps_witness :
  exists r isInvalid w' o,
    analyze true true example_env initial_world = (Return (r, isInvalid), w') /\
    deref (catalog w') r = Some o /\
    (status o = "invalid" ->
       confidence o = 0 /\
       exists s1 s2,
         processingSteps o = Some [s1; s2] /\
         completed s1 = true /\ completed s2 = false) /\
    (status o <> "invalid" ->
       exists s1 s2 s3,
         processingSteps o = Some [s1; s2; s3] /\
         completed s1 = true /\ completed s2 = true /\ completed s3 = true).
Proof.
  apply (analyze_result_steps example_env initial_world true true).
  - exact example_env_draws.
  - exact initial_catalog_ok.
Defined.

(** C8: the classifier and the analysis step return a value and never
    throw, and a file whose size cannot be read is invalid. *)
Theorem classifier_and_analysis_never_throw
  (env : Env) (w : World) (file : File) (image1Valid image2Valid : bool) :
  draws_in_range env -> catalog_ok (catalog w) ->
  (exists b w', isValidCropImage file env w = (Return b, w')) /\
  (stat_size env (path file) = None ->
     isValidCropImage file env w = (Return false, w)) /\
  (exists r isInvalid w',
     analyze image1Valid image2Valid env w = (Return (r, isInvalid), w')).
Proof.
  intros Hd Hc. split; [apply isValidCropImage_returns |].
  split; [apply isValidCropImage_unreadable |].
  destruct image1Valid, image2Valid.
  1: destruct (analyze_valid env w Hd Hc) as [i [o [_ Hrun]]]; eexists _, _, _; exact Hrun.
  all: match goal with
       | |- context [analyze ?a ?b] =>
           let H := fresh in
           assert (H : a = false \/ b = false) by (auto);
           destruct (analyze_invalid env w a b Hd H) as [phrase [_ Hrun]];
           eexists _, _, _; exact Hrun
       end.
Qed.

Lemma classifier_and_analysis_never_throw_witness :
  (exists b w',
     isValidCropImage (example_file "leaf1.jpg") example_env initial_world = (Return b, w')) /\
  (stat_size example_env (path (example_file "leaf1.jpg")) = None ->
     isValidCropImage (example_file "leaf1.jpg") example_env initial_world
       = (Return false, initial_world)) /\
  (exists r isInvalid w',
     analyze true false example_env initial_world = (Return (r, isInvalid), w')).
Proof.
  apply (classifier_and_analysis_never_throw example_env initial_world
           (example_file "leaf1.jpg") true false).
  - exact example_env_draws.
  - exact initial_catalog_ok.
Defined.

(** ** What the steps of the handler leave alone *)

(** Running the monad's operations on a store given by its fields. *)
Ltac run_eff :=
  cbv [bind ret throw get ask modify sleep console_error db_run_insert
       JSON_stringify read Date_now Math_random
       set_draws set_ticks set_catalog set_table add_event
       draws ticks catalog detection_logs sqlite_sequence events].

Lemma set_draws_same (w : World) : set_draws (draws w) w = w.
Proof. destruct w. reflexivity. Qed.

(** The classifier changes nothing but the number of draws made. *)
Lemma isValidCropImage_frame (env : Env) (w : World) (file : File) :
  exists b n, isValidCropImage file env w = (Return b, set_draws n w).
Proof.
  destruct (stat_size env (path file)) as [n |] eqn:Hstat.
  - destruct (Z_lt_dec n minSize) as [Hlo | Hlo];
      [| destruct (Z_gt_dec n maxSize) as [Hhi | Hhi]].
    + exists false, (draws w). rewrite set_draws_same.
      apply (isValidCropImage_out_of_bounds env w file n Hstat). now left.
    + exists false, (draws w). rewrite set_draws_same.
      apply (isValidCropImage_out_of_bounds env w file n Hstat). now right.
    + eexists _, _. apply (isValidCropImage_within_bounds env w file n Hstat). lia.
  - exists false, (draws w). rewrite set_draws_same.
    apply isValidCropImage_unreadable. exact Hstat.
Qed.

(** The analysis step changes nothing but the number of draws made and,
    with two valid files, one object of the array; [isInvalid] tells
    whether the status of the result is [invalid]. *)
Lemma analyze_frame (env : Env) (w : World) (image1Valid image2Valid : bool) :
  draws_in_range env -> catalog_ok (catalog w) ->
  exists r isInvalid n c o,
    analyze image1Valid image2Valid env w
      = (Return (r, isInvalid), set_catalog c (set_draws n w)) /\
    catalog_ok c /\
    deref c r = Some o /\
    (isInvalid = true <-> status o = "invalid").
Proof.
  intros Hd Hc.
  destruct (bool_decide (image1Valid = true /\ image2Valid = true)) eqn:Hv.
  - apply bool_decide_eq_true in Hv. destruct Hv as [-> ->].
    destruct (analyze_valid env w Hd Hc) as [i [o [Hi Hrun]]].
    eexists _, _, _, _, (set_processingSteps valid_steps o).
    split; [exact Hrun |]. split; [apply catalog_ok_alter; exact Hc |]. split.
    + simpl. rewrite list_lookup_alter_eq, Hi. reflexivity.
    + split; [discriminate |].
      intro Hs. exfalso. exact (catalog_ok_status _ _ _ Hc Hi Hs).
  - apply bool_decide_eq_false in Hv.
    assert (Hv' : image1Valid = false \/ image2Valid = false).
    { destruct image1Valid, image2Valid; auto. exfalso. apply Hv. split; reflexivity. }
    destruct (analyze_invalid env w image1Valid image2Valid Hd Hv') as [phrase [_ Hrun]].
    eexists _, true, (S (draws w)), (catalog w), _.
    split; [rewrite Hrun; destruct w; reflexivity |].
    split; [exact Hc |]. split; [reflexivity |]. split; reflexivity.
Qed.

(** The whole run of the handler on two files: classification and
    analysis, then the delay, then the insertion, then the answer. *)
Lemma detect_handler_two_files (env : Env) (w : World) (image1 image2 : File) :
  draws_in_range env -> catalog_ok (catalog w) ->
  exists r isInvalid n c o,
    deref c r = Some o /\
    catalog_ok c /\
    (isInvalid = true <-> status o = "invalid") /\
    let w1 := set_catalog c (set_draws n w) in
    let w2 :=
      add_event (EvInsert (filename image1) (filename image2) (stringify (Result_value o)))
        (add_event (EvSleep (if isInvalid then 7000 else 15000)) w1) in
    detect_handler (Some [image1; image2]) env w =
      if insert_error env then
        (Return (mkResponse 500 (ErrorBody "Failed to log detection")),
         add_event (EvConsoleError "Error logging detection:") w2)
      else
        (Return (mkResponse 200
                   (DetectBody (sqlite_sequence w + 1)
                      ["/uploads/" ++ filename image1; "/uploads/" ++ filename image2]
                      (Result_value o) (clock_values env (ticks w)))),
         set_ticks (S (ticks w))
           (set_table (detection_logs w ++ [logged_row env w image1 image2 o])%list
                      (sqlite_sequence w + 1) w2)).
Proof.
  intros Hd Hc.
  destruct (isValidCropImage_frame env w image1) as [b1 [n1 H1]].
  destruct (isValidCropImage_frame env (set_draws n1 w) image2) as [b2 [n2 H2]].
  destruct (analyze_frame env (set_draws n2 (set_draws n1 w)) b1 b2 Hd Hc)
    as [r [isInvalid [n [c [o [Hrun [Hc' [Hderef Hinv]]]]]]]].
  exists r, isInvalid, n, c, o.
  split; [exact Hderef |]. split; [exact Hc' |]. split; [exact Hinv |].
  cbv zeta. unfold detect_handler, try_catch.
  unfold bind at 1. rewrite H1.
  unfold bind at 1. rewrite H2.
  unfold bind at 1. rewrite Hrun.
  unfold logged_row. destruct w as [d t c0 rows seq evs].
  destruct (insert_error env) eqn:Herr; run_eff; rewrite Herr; run_eff;
    rewrite ?Hderef; reflexivity.
Qed.

(** ** The delay *)

(** C9: the handler sleeps once, before it inserts the row and before it
    answers: 7000 ms when the status of the result is [invalid], 15000 ms
    otherwise. *)
Theorem detect_handler_delay (env : Env) (w : World) (image1 image2 : File) :
  draws_in_range env -> catalog_ok (catalog w) ->
  exists resp w' o ms rest,
    detect_handler (Some [image1; image2]) env w = (Return resp, w') /\
    events w' =
      (events w ++
       EvSleep ms
       :: EvInsert (filename image1) (filename image2) (stringify (Result_value o))
       :: rest)%list /\
    (rest = [] \/ rest = [EvConsoleError "Error logging detection:"]) /\
    (statusCode resp = 200 ->
       exists lastID images timestamp,
         body resp = DetectBody lastID images (Result_value o) timestamp) /\
    (status o = "invalid" -> ms = 7000) /\
    (status o <> "invalid" -> ms = 15000).
Proof.
  intros Hd Hc.
  destruct (detect_handler_two_files env w image1 image2 Hd Hc)
    as [r [isInvalid [n [c [o [_ [_ [Hinv Hrun]]]]]]]].
  cbv zeta in Hrun.
  assert (Hms : (status o = "invalid" -> (if isInvalid then 7000 else 15000) = 7000) /\
                (status o <> "invalid" -> (if isInvalid then 7000 else 15000) = 15000)).
  { destruct isInvalid.
    - split; [reflexivity |]. intro Hs. exfalso. apply Hs. apply Hinv. reflexivity.
    - split; [| reflexivity]. intro Hs. apply Hinv in Hs. discriminate Hs. }
  destruct (insert_error env).
  - eexists _, _, o, _, _. split; [exact Hrun |].
    split; [destruct w; simpl; rewrite <- !app_assoc; reflexivity |].
    split; [right; reflexivity |].
    split; [discriminate | exact Hms].
  - eexists _, _, o, _, _. split; [exact Hrun |].
    split; [destruct w; simpl; rewrite <- !app_assoc; reflexivity |].
    split; [left; reflexivity |].
    split; [intros _; eexists _, _, _; reflexivity | exact Hms].
Qed.

Lemma detect_handler_delay_witness :
  exists resp w' o ms rest,
    detect_handler (Some [example_file "leaf1.jpg"; example_file "leaf2.jpg"])
      example_env initial_world = (Return resp, w') /\
    events w' =
      (events initial_world ++
       EvSleep ms
       :: EvInsert (filename (example_file "leaf1.jpg")) (filename (example_file "leaf2.jpg"))
                   (stringify (Result_value o))
       :: rest)%list /\
    (rest = [] \/ rest = [EvConsoleError "Error logging detection:"]) /\
    (statusCode resp = 200 ->
       exists lastID images timestamp,
         body resp = DetectBody lastID images (Result_value o) timestamp) /\
    (status o = "invalid" -> ms = 7000) /\
    (status o <> "invalid" -> ms = 15000).
Proof.
  apply (detect_handler_delay example_env initial_world).
  - exact example_env_draws.
  - exact initial_catalog_ok.
Defined.

Example delay_valid :
  events (snd (detect_handler (Some [example_file "leaf1.jpg"; example_file "leaf2.jpg"])
                 example_env initial_world))
  = [EvSleep 15000;
     EvInsert "1700000000000-500000000-leaf1.jpg" "1700000000000-500000000-leaf2.jpg"
       (stringify (Result_value
          (mkResult "critical" "Critical Disease Identified"
             "Severe disease markers detected. Immediate treatment recommended."
             88 "red" (Some valid_steps))))].
Proof. vm_compute. reflexivity. Qed.

(** ** Image intake *)

(** The intake reads the clock and draws numbers; it touches nothing else. *)
Lemma accept_files_frame (name : string) (parts : list Part) :
  forall (filesLeft : nat) (env : Env) (w : World),
    exists n t, snd (accept_files name filesLeft parts env w) = set_ticks t (set_draws n w).
Proof.
  induction parts as [| p rest IH]; intros filesLeft env w.
  - exists (draws w), (ticks w). destruct w. reflexivity.
  - cbn [accept_files].
    destruct (negb (String.eqb (part_fieldname p) name)).
    { exists (draws w), (ticks w). destruct w. reflexivity. }
    destruct filesLeft as [| filesLeft'].
    { exists (draws w), (ticks w). destruct w. reflexivity. }
    unfold fileFilter, uploadsDir, storage_filename.
    destruct (String.prefix "image/" (part_mimetype p)).
    2: { exists (draws w), (ticks w). destruct w. reflexivity. }
    destruct (part_size p >=? fileSize) eqn:Hsize.
    { exists (S (draws w)), (S (ticks w)). destruct w. run_eff. rewrite ?Hsize. reflexivity. }
    destruct (IH filesLeft' env (set_draws (S (draws w)) (set_ticks (S (ticks w)) w)))
      as [n [t Hrest]].
    exists n, t. destruct w as [d tk c rows seq evs]. revert Hrest. run_eff.
    rewrite ?Hsize.
    destruct (accept_files name filesLeft' rest env _) as [[files | e] w1];
      simpl; intro Hrest; exact Hrest.
Qed.

(** More files than [maxCount] end the upload with an error. *)
Lemma accept_files_too_many (name : string) (parts : list Part) :
  forall (filesLeft : nat) (env : Env) (w : World),
    (filesLeft < length parts)%nat ->
    exists e, fst (accept_files name filesLeft parts env w) = Throw e.
Proof.
  induction parts as [| p rest IH]; intros filesLeft env w Hlen.
  - simpl in Hlen. lia.
  - cbn [accept_files].
    destruct (negb (String.eqb (part_fieldname p) name)); [eexists; reflexivity |].
    destruct filesLeft as [| filesLeft']; [eexists; reflexivity |].
    unfold fileFilter, uploadsDir, storage_filename.
    destruct (String.prefix "image/" (part_mimetype p)); [| eexists; reflexivity].
    destruct (part_size p >=? fileSize) eqn:Hsize.
    { eexists. run_eff. rewrite ?Hsize. reflexivity. }
    destruct (IH filesLeft' env (set_draws (S (draws w)) (set_ticks (S (ticks w)) w)))
      as [e He]; [simpl in Hlen; lia |].
    exists e. destruct w as [d tk c rows seq evs]. revert He. run_eff.
    rewrite ?Hsize.
    destruct (accept_files name filesLeft' rest env _) as [[files | e'] w1];
      simpl; intro He; [discriminate He | exact He].
Qed.

(** What the intake hands over when it accepts a single file. *)
Lemma accept_files_one (env : Env) (w : World) (p : Part) :
  accepted_part p ->
  accept_files "images" 2 [p] env w =
    (Return [stored_file env w 0 p], set_draws (S (draws w)) (set_ticks (S (ticks w)) w)).
Proof.
  intros [_ [Hfield [Htype Hsize]]].
  cbn [accept_files]. rewrite Hfield. cbn [String.eqb Ascii.eqb Bool.eqb negb].
  unfold fileFilter, uploadsDir, storage_filename. rewrite Htype.
  assert (Hgt : (part_size p >=? fileSize) = false)
    by (rewrite Z.geb_leb; apply Z.leb_gt; exact Hsize).
  destruct w as [d tk c rows seq evs]. run_eff. rewrite Hgt.
  unfold stored_file, generated_filename. cbn [ticks draws].
  rewrite !Nat.add_0_r, Hfield. reflexivity.
Qed.

(** What the intake hands over when it lets two files through. *)
Lemma accept_files_two (env : Env) (w : World) (p1 p2 : Part) (files : list File) (w0 : World) :
  accept_files "images" 2 [p1; p2] env w = (Return files, w0) ->
  files = [stored_file env w 0 p1; stored_file env w 1 p2] /\
  w0 = set_draws (S (S (draws w))) (set_ticks (S (S (ticks w))) w).
Proof.
  cbn [accept_files].
  destruct (negb (String.eqb (part_fieldname p1) "images")); [discriminate |].
  destruct (negb (String.eqb (part_fieldname p2) "images")) eqn:Hf2.
  all: unfold fileFilter, uploadsDir, storage_filename.
  all: destruct (String.prefix "image/" (part_mimetype p1)); [| discriminate].
  all: destruct (part_size p1 >=? fileSize) eqn:Hs1.
  all: destruct w as [d tk c rows seq evs]; run_eff; rewrite ?Hs1; try discriminate.
  all: rewrite ?Hf2; try discriminate.
  destruct (String.prefix "image/" (part_mimetype p2)); [| discriminate].
  destruct (part_size p2 >=? fileSize) eqn:Hs2; [discriminate |].
  intro H. injection H as <- <-.
  unfold stored_file, generated_filename. cbn [ticks draws].
  rewrite !Nat.add_0_r, !Nat.add_1_r. split; reflexivity.
Qed.

(** ** POST /api/detect, intake included *)

Lemma post_api_detect_uploaded
  (env : Env) (w : World) (b : RequestBody) (files : option (list File)) (w0 : World) :
  upload_array "images" 2 b env w = (Return files, w0) ->
  post_api_detect b env w = detect_handler files env w0.
Proof.
  intro Hup. unfold post_api_detect, try_catch, bind. rewrite Hup. reflexivity.
Qed.

Lemma post_api_detect_rejected
  (env : Env) (w : World) (b : RequestBody) (e : Exn) (w0 : World) :
  upload_array "images" 2 b env w = (Throw e, w0) ->
  post_api_detect b env w = (Return (mkResponse 500 (ErrorPage e)), w0).
Proof.
  intro Hup. unfold post_api_detect, try_catch, bind. rewrite Hup. reflexivity.
Qed.

Lemma upload_array_multipart (env : Env) (w : World) (parts : list Part) :
  upload_array "images" 2 (Multipart parts) env w =
    match accept_files "images" 2 (file_parts (Multipart parts)) env w with
    | (Return files, w0) => (Return (Some files), w0)
    | (Throw e, w0) => (Throw e, w0)
    end.
Proof. reflexivity. Qed.

(** C6: when a submission of two files is answered with success, the
    table has exactly one more row, and the row's two names are the names
    the intake generated for the first and for the second file. *)
Theorem post_api_detect_logs_one_row
  (env : Env) (w : World) (b : RequestBody) (resp : Response) (w' : World) :
  draws_in_range env -> catalog_ok (catalog w) ->
  length (file_parts b) = 2%nat ->
  post_api_detect b env w = (Return resp, w') ->
  statusCode resp = 200 ->
  exists p1 p2 image1 image2 w0 row,
    file_parts b = [p1; p2] /\
    upload_array "images" 2 b env w = (Return (Some [image1; image2]), w0) /\
    filename image1 = generated_filename env w 0 (part_originalname p1) /\
    filename image2 = generated_filename env w 1 (part_originalname p2) /\
    detection_logs w' = (detection_logs w ++ [row])%list /\
    image1_name row = filename image1 /\
    image2_name row = filename image2.
Proof.
  intros Hd Hc Hlen Hrun Hok.
  destruct b as [| parts]; [discriminate Hlen |].
  pose proof (upload_array_multipart env w parts) as Hup.
  destruct (file_parts (Multipart parts)) as [| p1 [| p2 [| p3 rest]]] eqn:Hparts;
    try discriminate Hlen.
  destruct (accept_files "images" 2 [p1; p2] env w) as [[files | e] w0] eqn:Hacc.
  - apply accept_files_two in Hacc. destruct Hacc as [-> ->].
    rewrite (post_api_detect_uploaded _ _ _ _ _ Hup) in Hrun.
    destruct (detect_handler_two_files env
                (set_draws (S (S (draws w))) (set_ticks (S (S (ticks w))) w))
                (stored_file env w 0 p1) (stored_file env w 1 p2) Hd)
      as [r [isInvalid [n [c [o [_ [_ [_ Hhandler]]]]]]]].
    { destruct w. exact Hc. }
    cbv zeta in Hhandler. rewrite Hhandler in Hrun. clear Hhandler.
    destruct (insert_error env).
    + injection Hrun as <- _. discriminate Hok.
    + injection Hrun as _ <-.
      eexists p1, p2, _, _, _, _. split; [reflexivity |].
      split; [exact Hup |]. split; [reflexivity |]. split; [reflexivity |].
      split; [destruct w; reflexivity |]. split; reflexivity.
  - rewrite (post_api_detect_rejected _ _ _ _ _ Hup) in Hrun.
    injection Hrun as <- _. discriminate Hok.
Qed.

Lemma post_api_detect_logs_one_row_witness :
  exists p1 p2 image1 image2 w0 row,
    file_parts (Multipart example_parts) = [p1; p2] /\
    upload_array "images" 2 (Multipart example_parts) example_env initial_world
      = (Return (Some [image1; image2]), w0) /\
    filename image1 = generated_filename example_env initial_world 0 (part_originalname p1) /\
    filename image2 = generated_filename example_env initial_world 1 (part_originalname p2) /\
    detection_logs (snd (post_api_detect (Multipart example_parts) example_env initial_world))
      = (detection_logs initial_world ++ [row])%list /\
    image1_name row = filename image1 /\
    image2_name row = filename image2.
Proof.
  apply (post_api_detect_logs_one_row example_env initial_world (Multipart example_parts)
           example_response).
  - exact example_env_draws.
  - exact initial_catalog_ok.
  - reflexivity.
  - vm_compute. reflexivity.
  - reflexivity.
Defined.

(** C2: the code at a submission of three files.  The handler's own test
    [req.files.length !== 2] answers the 400 file-count error for three
    files, as the claim says; but the route puts [upload.array('images',
    2)] in front of it, the limit of two ends the upload, the handler does
    not run, and the answer is the 500 of the default error handler. *)
Lemma post_api_detect_three_files_not_400 :
  length (file_parts (Multipart example_three_parts)) = 3%nat /\
  fst (post_api_detect (Multipart example_three_parts) example_env initial_world)
    = Return (mkResponse 500 (ErrorPage (JsError "MulterError" "Unexpected field"))) /\
  fst (post_api_detect (Multipart example_three_parts) example_env initial_world)
    <> Return (mkResponse 400
                 (ErrorBody "Exactly 2 images are required for disease detection")) /\
  fst (detect_handler
         (Some (imap (stored_file example_env initial_world) example_three_parts))
         example_env initial_world)
    = Return (mkResponse 400
                (ErrorBody "Exactly 2 images are required for disease detection")).
Proof.
  split; [reflexivity |]. split; [vm_compute; reflexivity |].
  split; [vm_compute; discriminate | vm_compute; reflexivity].
Qed.

(** The other counts: a submission with no file or with one file that the
    intake stores is answered 400 with the file-count error; every
    submission with three or more files is ended by the intake's limit of
    two files and answered 500 by the default error handler; in both
    cases the table is left as it was. *)
Lemma post_api_detect_wrong_file_count (env : Env) (w : World) (b : RequestBody) :
  ((length (file_parts b) <= 1)%nat -> Forall accepted_part (file_parts b) ->
     exists w',
       post_api_detect b env w =
         (Return (mkResponse 400
                    (ErrorBody "Exactly 2 images are required for disease detection")),
          w') /\
       detection_logs w' = detection_logs w) /\
  ((3 <= length (file_parts b))%nat ->
     exists e w',
       post_api_detect b env w = (Return (mkResponse 500 (ErrorPage e)), w') /\
       detection_logs w' = detection_logs w).
Proof.
  split.
  - intros Hlen Hacc. destruct b as [| parts].
    + exists w. split; reflexivity.
    + pose proof (upload_array_multipart env w parts) as Hup.
      destruct (file_parts (Multipart parts)) as [| p [| p' rest]] eqn:Hparts.
      * exists w. split; [| reflexivity].
        rewrite (post_api_detect_uploaded _ _ _ _ _ Hup). reflexivity.
      * apply Forall_inv in Hacc.
        rewrite (accept_files_one env w p Hacc) in Hup.
        eexists. split.
        -- rewrite (post_api_detect_uploaded _ _ _ _ _ Hup). reflexivity.
        -- destruct w. reflexivity.
      * simpl in Hlen. lia.
  - intro Hlen. destruct b as [| parts]; [simpl in Hlen; lia |].
    pose proof (upload_array_multipart env w parts) as Hup.
    destruct (accept_files_too_many "images" (file_parts (Multipart parts)) 2 env w)
      as [e He]; [lia |].
    destruct (accept_files_frame "images" (file_parts (Multipart parts)) 2 env w)
      as [n [t Hw]].
    destruct (accept_files "images" 2 (file_parts (Multipart parts)) env w)
      as [[files | e'] w0]; simpl in He, Hw; [discriminate He |].
    exists e', w0. split.
    + apply post_api_detect_rejected. exact Hup.
    + rewrite Hw. destruct w. reflexivity.
Qed.

Lemma post_api_detect_wrong_file_count_examples :
  (exists w',
     post_api_detect (Multipart [mkPart "images" "leaf1.jpg" "image/jpeg" 204800])
       example_env initial_world =
       (Return (mkResponse 400
                  (ErrorBody "Exactly 2 images are required for disease detection")),
        w') /\
     detection_logs w' = detection_logs initial_world) /\
  (exists e w',
     post_api_detect (Multipart example_three_parts) example_env initial_world
       = (Return (mkResponse 500 (ErrorPage e)), w') /\
     detection_logs w' = detection_logs initial_world).
Proof.
  split.
  - apply (post_api_detect_wrong_file_count example_env initial_world
             (Multipart [mkPart "images" "leaf1.jpg" "image/jpeg" 204800])).
    + simpl. lia.
    + constructor; [| constructor].
      split; [discriminate |].
    split; [reflexivity |]. split; [reflexivity |]. unfold fileSize. simpl. lia.
  - apply (post_api_detect_wrong_file_count example_env initial_world
             (Multipart example_three_parts)).
    simpl. lia.
Qed.

(** The handler on its own answers the file-count error for every
    [req.files] that does not hold two files, and does nothing else. *)
Lemma detect_handler_wrong_count (env : Env) (w : World) (files : option (list File)) :
  (forall fs, files = Some fs -> length fs <> 2%nat) ->
  detect_handler files env w = (Return file_count_error, w).
Proof.
  intro Hlen. destruct files as [[| image1 [| image2 [| image3 fs]]] |]; try reflexivity.
  exfalso. apply (Hlen [image1; image2]); reflexivity.
Qed.

(** ** What computations leave alone *)

Lemma catalog_le_refl (c : list Result) : catalog_le c c.
Proof. induction c; constructor; [left; reflexivity | assumption]. Qed.

Lemma catalog_le_trans (c1 c2 c3 : list Result) :
  catalog_le c1 c2 -> catalog_le c2 c3 -> catalog_le c1 c3.
Proof.
  intro H12. revert c3. induction H12 as [| o1 o2 l1 l2 Ho _ IH]; intros c3 H23.
  - inversion H23. constructor.
  - inversion H23 as [| o2' o3 l2' l3 Ho' H23']; subst. constructor; [| apply IH; exact H23'].
    destruct Ho as [-> | ->], Ho' as [-> | ->]; [left | right | right | right]; reflexivity.
Qed.

Lemma catalog_le_alter (c : list Result) (i : nat) :
  catalog_le c (alter (set_processingSteps valid_steps) i c).
Proof.
  revert i. induction c as [| o c IH]; intros [| i]; simpl.
  - constructor.
  - constructor.
  - constructor; [right; reflexivity | apply catalog_le_refl].
  - constructor; [left; reflexivity | apply IH].
Qed.

(** A written object keeps its steps once it has them. *)
Lemma catalog_le_keeps_steps (c c' : list Result) (i : nat) (o : Result) :
  catalog_le c c' -> c !! i = Some o -> processingSteps o = Some valid_steps ->
  exists o', c' !! i = Some o' /\ processingSteps o' = Some valid_steps.
Proof.
  intro Hle. revert i. induction Hle as [| o1 o2 l1 l2 Ho _ IH]; intros [| i] Hi Hs.
  - discriminate Hi.
  - discriminate Hi.
  - injection Hi as ->. exists o2. split; [reflexivity |].
    destruct Ho as [-> | ->]; [exact Hs | reflexivity].
  - apply IH; assumption.
Qed.

#[local] Instance same_store_rel : StoreRel same_store.
Proof.
  split.
  - intro w. repeat split.
  - intros w1 w2 w3 [Hc [Hl Hs]] [Hc' [Hl' Hs']]. repeat split; congruence.
  - intros w w' H. exact H.
Qed.

#[local] Instance grows_rel : StoreRel grows.
Proof.
  split.
  - intro w. apply catalog_le_refl.
  - intros w1 w2 w3. apply catalog_le_trans.
  - intros w w' [Hc _]. unfold grows. rewrite Hc. apply catalog_le_refl.
Qed.

Section Respects.

Context (R : World -> World -> Prop) `{!StoreRel R}.
Context {A B : Type}.

Lemma respects_ret (a : A) : respects R (ret a).
Proof. intros env w. apply store_rel_refl. Qed.

Lemma respects_throw (e : Exn) : respects R (@throw A e).
Proof. intros env w. apply store_rel_refl. Qed.

Lemma respects_ask (f : Env -> A) : respects R (ask f).
Proof. intros env w. apply store_rel_refl. Qed.

Lemma respects_get (f : World -> A) : respects R (get f).
Proof. intros env w. apply store_rel_refl. Qed.

Lemma respects_bind (m : Eff A) (k : A -> Eff B) :
  respects R m -> (forall a, respects R (k a)) -> respects R (bind m k).
Proof.
  intros Hm Hk env w. unfold bind. specialize (Hm env w).
  destruct (m env w) as [[a | e] w1]; simpl in *.
  - eapply store_rel_trans; [exact Hm | apply Hk].
  - exact Hm.
Qed.

Lemma respects_try_catch (body : Eff A) (handler : Exn -> Eff A) :
  respects R body -> (forall e, respects R (handler e)) -> respects R (try_catch body handler).
Proof.
  intros Hm Hk env w. unfold try_catch. specialize (Hm env w).
  destruct (body env w) as [[a | e] w1]; simpl in *.
  - exact Hm.
  - eapply store_rel_trans; [exact Hm | apply Hk].
Qed.

(** A change of the counters or of the list of events. *)
Lemma respects_modify (f : World -> World) :
  (forall w, same_store w (f w)) -> respects R (modify f).
Proof. intros Hf env w. apply store_rel_frame. apply Hf. Qed.

Lemma respects_Math_random : respects R Math_random.
Proof. intros env w. apply store_rel_frame. destruct w. repeat split. Qed.

Lemma respects_Date_now : respects R Date_now.
Proof. intros env w. apply store_rel_frame. destruct w. repeat split. Qed.

Lemma respects_statSync_size (p : string) : respects R (statSync_size p).
Proof.
  intros env w. unfold statSync_size. destruct (stat_size env p); apply store_rel_refl.
Qed.

Lemma respects_map_eff (f : A -> Eff B) (l : list A) :
  (forall a, respects R (f a)) -> respects R (map_eff f l).
Proof.
  intro Hf. induction l as [| x l IH]; simpl.
  - intros env w. apply store_rel_refl.
  - intros env w. unfold bind. pose proof (Hf x env w) as Hx.
    destruct (f x env w) as [[y | e] w1]; simpl in *; [| exact Hx].
    pose proof (IH env w1) as Hl.
    destruct (map_eff f l env w1) as [[ys | e] w2]; simpl in *;
      eapply store_rel_trans; eassumption.
Qed.

End Respects.

Create HintDb respects.

#[local] Hint Resolve respects_ret respects_throw respects_ask respects_get
  respects_Math_random respects_Date_now respects_statSync_size : respects.

(** Going through a computation operation by operation. *)
Ltac respects_step :=
  first
    [ solve [auto with respects typeclass_instances]
    | apply respects_bind; [typeclasses eauto | | intro]
    | apply respects_try_catch; [typeclasses eauto | | intro]
    | apply respects_modify; [typeclasses eauto | intros []; repeat split]
    | match goal with
      | |- respects _ (match ?x with _ => _ end) => destruct x
      end ].

Ltac respects_all := repeat respects_step.

Section RespectsAny.

Context (R : World -> World -> Prop) `{!StoreRel R}.

Lemma respects_sleep (ms : Z) : respects R (sleep ms).
Proof. unfold sleep. respects_all. Qed.

Lemma respects_console_error (msg : string) : respects R (console_error msg).
Proof. unfold console_error. respects_all. Qed.

Lemma respects_isValidCropImage (file : File) : respects R (isValidCropImage file).
Proof. unfold isValidCropImage. respects_all. Qed.

Lemma respects_getRandomInvalidImageMessage : respects R getRandomInvalidImageMessage.
Proof. unfold getRandomInvalidImageMessage. respects_all. Qed.

Lemma respects_getRandomResponse : respects R getRandomResponse.
Proof. unfold getRandomResponse. respects_all. Qed.

Lemma respects_read (r : Ref) : respects R (read r).
Proof. unfold read. respects_all. Qed.

Lemma respects_history_handler : respects R history_handler.
Proof.
  unfold history_handler. respects_all.
  apply respects_map_eff; [typeclasses eauto |]. intro row. unfold entry_of_row. respects_all.
Qed.

Lemma respects_health_handler : respects R health_handler.
Proof. unfold health_handler. respects_all. Qed.

Lemma respects_accept_files (name : string) (parts : list Part) :
  forall filesLeft, respects R (accept_files name filesLeft parts).
Proof.
  induction parts as [| p rest IH]; intro filesLeft; cbn [accept_files].
  - apply respects_ret. typeclasses eauto.
  - unfold fileFilter, uploadsDir, storage_filename.
    destruct (negb (String.eqb (part_fieldname p) name)); [respects_all |].
    destruct filesLeft as [| filesLeft']; [respects_all |].
    repeat first [ apply IH | respects_step ].
Qed.

Lemma respects_upload_array (name : string) (maxCount : nat) (b : RequestBody) :
  respects R (upload_array name maxCount b).
Proof.
  unfold upload_array. destruct b; [respects_all |].
  repeat first [ apply respects_accept_files | respects_step ].
Qed.

End RespectsAny.

#[local] Hint Resolve respects_sleep respects_console_error respects_isValidCropImage
  respects_getRandomInvalidImageMessage respects_getRandomResponse respects_read
  respects_history_handler respects_health_handler respects_upload_array : respects.

(** ** What requests do to the array [simulatedResponses] *)

Lemma grows_assign_processingSteps (target : option nat) :
  respects grows (assign_processingSteps target valid_steps).
Proof.
  intros env w. destruct target as [i |]; simpl.
  - apply catalog_le_alter.
  - apply catalog_le_refl.
Qed.

Lemma grows_db_run_insert (image1 image2 resultText : string) :
  respects grows (db_run_insert image1 image2 resultText).
Proof.
  intros env w. unfold db_run_insert, bind, modify, ask, get, ret. simpl.
  destruct (insert_error env); simpl; destruct w; apply catalog_le_refl.
Qed.

#[local] Hint Resolve grows_assign_processingSteps grows_db_run_insert : respects.

Lemma grows_analyze (image1Valid image2Valid : bool) :
  respects grows (analyze image1Valid image2Valid).
Proof. unfold analyze. respects_all. Qed.

#[local] Hint Resolve grows_analyze : respects.

Lemma grows_detect_handler (files : option (list File)) :
  respects grows (detect_handler files).
Proof. unfold detect_handler, JSON_stringify. respects_all. Qed.

#[local] Hint Resolve grows_detect_handler : respects.

Lemma grows_serve (req : Request) : respects grows (serve req).
Proof.
  destruct req; simpl; [| auto with respects typeclass_instances ..].
  unfold post_api_detect, default_error_handler. respects_all.
Qed.

Lemma serve_all_catalog_le (reqs : list (Env * Request)) :
  forall w, catalog_le (catalog w) (catalog (serve_all reqs w)).
Proof.
  induction reqs as [| [env req] reqs IH]; intro w; simpl.
  - apply catalog_le_refl.
  - eapply catalog_le_trans; [apply grows_serve | apply IH].
Qed.

(** Every store the server can reach keeps the five literals in the array. *)
Lemma catalog_le_ok (c c' : list Result) : catalog_le c c' -> catalog_ok c -> catalog_ok c'.
Proof.
  unfold catalog_ok. intros Hle <-. induction Hle as [| o o' l l' Ho _ IH]; simpl.
  - reflexivity.
  - f_equal; [| exact IH]. destruct Ho as [-> | ->]; reflexivity.
Qed.

Lemma serve_all_catalog_ok (reqs : list (Env * Request)) :
  catalog_ok (catalog (serve_all reqs initial_world)).
Proof.
  eapply catalog_le_ok; [apply serve_all_catalog_le | exact initial_catalog_ok].
Qed.

(** ** What holds of every store the server reaches *)

Section Hoare.

Context {A B : Type}.

Lemma hoare_ret (P : World -> Prop) (Q : A -> World -> Prop) (E : World -> Prop) (a : A) :
  (forall w, P w -> Q a w) -> hoare P (ret a) Q E.
Proof. intros H env w Hw. apply H. exact Hw. Qed.

Lemma hoare_throw (P : World -> Prop) (Q : A -> World -> Prop) (E : World -> Prop) (e : Exn) :
  (forall w, P w -> E w) -> hoare P (throw e) Q E.
Proof. intros H env w Hw. apply H. exact Hw. Qed.

Lemma hoare_bind (P : World -> Prop) (m : Eff A) (k : A -> Eff B)
  (S : A -> World -> Prop) (Q : B -> World -> Prop) (E : World -> Prop) :
  hoare P m S E -> (forall a, hoare (S a) (k a) Q E) -> hoare P (bind m k) Q E.
Proof.
  intros Hm Hk env w Hw. unfold bind. specialize (Hm env w Hw).
  destruct (m env w) as [[a | e] w1]; [apply Hk; exact Hm | exact Hm].
Qed.

Lemma hoare_try_catch (P : World -> Prop) (body : Eff A) (handler : Exn -> Eff A)
  (Q : A -> World -> Prop) (E' E : World -> Prop) :
  hoare P body Q E' -> (forall e, hoare E' (handler e) Q E) ->
  hoare P (try_catch body handler) Q E.
Proof.
  intros Hm Hk env w Hw. unfold try_catch. specialize (Hm env w Hw).
  destruct (body env w) as [[a | e] w1]; [exact Hm | apply Hk; exact Hm].
Qed.

Lemma store_ok_same_store (w w' : World) : same_store w w' -> store_ok w -> store_ok w'.
Proof. intros [Hc [Hl _]] [Hc' Hl']. split; [rewrite Hc | rewrite Hl]; assumption. Qed.

(** A computation that leaves the array and the table alone keeps what
    holds of them, and any fact that is not about the store. *)
Lemma hoare_same_store_with (fact : Prop) (m : Eff A) :
  respects same_store m ->
  hoare (fun w => store_ok w /\ fact) m (fun _ w => store_ok w /\ fact) store_ok.
Proof.
  intros Hm env w [Hw Hf]. specialize (Hm env w).
  destruct (m env w) as [[a | e] w1]; simpl in Hm.
  - split; [exact (store_ok_same_store _ _ Hm Hw) | exact Hf].
  - exact (store_ok_same_store _ _ Hm Hw).
Qed.

Lemma hoare_same_store (m : Eff A) :
  respects same_store m -> hoare store_ok m (fun _ => store_ok) store_ok.
Proof.
  intros Hm env w Hw. specialize (Hm env w).
  destruct (m env w) as [[a | e] w1]; simpl in Hm; exact (store_ok_same_store _ _ Hm Hw).
Qed.

End Hoare.

Ltac safe_numbers :=
  unfold safe_result, safe_integer; simpl; repeat first [split | constructor]; lia.

(** The objects of the array hold integer Numbers. *)
Lemma catalog_le_safe (c : list Result) (i : nat) (o : Result) :
  catalog_le simulatedResponses c -> c !! i = Some o -> safe_result o.
Proof.
  intros Hle Hi.
  destruct (Forall2_lookup_r _ _ _ _ _ Hle Hi) as [o0 [H0 Hw]].
  do 5 (destruct i as [| i];
        [injection H0 as <-; destruct Hw as [-> | ->]; safe_numbers |]).
  discriminate H0.
Qed.

Lemma hoare_analyze (image1Valid image2Valid : bool) :
  hoare store_ok (analyze image1Valid image2Valid)
        (fun p w => store_ok w /\ ref_ok (fst p)) store_ok.
Proof.
  unfold analyze. destruct (negb image1Valid || negb image2Valid).
  - apply hoare_bind with (S := fun _ => store_ok).
    + destruct (negb image1Valid);
        (apply hoare_bind with (S := fun _ => store_ok);
         [apply hoare_same_store; auto with respects typeclass_instances
         | intro p; apply hoare_ret; auto]).
    + intro msg. apply hoare_ret. intros w Hw. split; [exact Hw | safe_numbers].
  - apply hoare_bind with (S := fun _ => store_ok);
      [apply hoare_same_store; auto with respects typeclass_instances | intro target].
    apply hoare_bind with (S := fun _ => store_ok).
    + intros env w [Hc Hl]. destruct target as [i |]; simpl.
      * split; [| destruct w; exact Hl].
        destruct w. simpl in *. eapply catalog_le_trans; [exact Hc | apply catalog_le_alter].
      * split; assumption.
    + intro i. apply hoare_ret. intros w Hw. split; [exact Hw | exact I].
Qed.

Lemma hoare_JSON_stringify (r : Ref) :
  hoare (fun w => store_ok w /\ ref_ok r) (JSON_stringify r)
        (fun text w => store_ok w /\ logged_text text) store_ok.
Proof.
  intros env w [Hw Hr]. unfold JSON_stringify, read, bind, get. simpl.
  destruct (deref (catalog w) r) as [o |] eqn:Hd; simpl; [| exact Hw].
  split; [exact Hw |]. exists o. split; [| reflexivity].
  destruct r as [o' | i]; simpl in *.
  - injection Hd as <-. exact Hr.
  - eapply catalog_le_safe; [apply Hw | exact Hd].
Qed.

Lemma hoare_db_run_insert (image1 image2 text : string) :
  hoare (fun w => store_ok w /\ logged_text text) (db_run_insert image1 image2 text)
        (fun _ => store_ok) store_ok.
Proof.
  intros env w [[Hc Hl] Ht]. unfold db_run_insert, bind, modify, ask, get, ret. simpl.
  destruct (insert_error env); simpl; destruct w; simpl in *.
  - split; assumption.
  - split; [exact Hc |]. apply Forall_app. split; [exact Hl |].
    constructor; [exact Ht | constructor].
Qed.

Lemma hoare_detect_handler (files : option (list File)) :
  hoare store_ok (detect_handler files) (fun _ => store_ok) store_ok.
Proof.
  unfold detect_handler. apply hoare_try_catch with (E' := store_ok).
  2: { intro e. apply hoare_same_store. respects_all. }
  destruct files as [[| image1 [| image2 [| image3 fs]]] |]; try (apply hoare_ret; auto).
  apply hoare_bind with (S := fun _ => store_ok);
    [apply hoare_same_store; auto with respects typeclass_instances | intro image1Valid].
  apply hoare_bind with (S := fun _ => store_ok);
    [apply hoare_same_store; auto with respects typeclass_instances | intro image2Valid].
  apply hoare_bind with (S := fun p w => store_ok w /\ ref_ok (fst p));
    [apply hoare_analyze | intros [r isInvalid]].
  apply hoare_bind with (S := fun text w => store_ok w /\ logged_text text);
    [apply hoare_JSON_stringify | intro text].
  apply hoare_bind with (S := fun _ w => store_ok w /\ logged_text text);
    [apply hoare_same_store_with; auto with respects typeclass_instances | intros _].
  apply hoare_bind with (S := fun _ => store_ok);
    [apply hoare_db_run_insert | intro inserted].
  destruct inserted; apply hoare_same_store; respects_all.
Qed.

Lemma hoare_serve (req : Request) : hoare store_ok (serve req) (fun _ => store_ok) store_ok.
Proof.
  destruct req as [b | |]; simpl.
  - unfold post_api_detect.
    apply hoare_bind with (S := fun _ => store_ok).
    + apply hoare_same_store. respects_all.
    + intros [e | files].
      * apply hoare_ret. auto.
      * apply hoare_detect_handler.
  - apply hoare_same_store. auto with respects typeclass_instances.
  - apply hoare_same_store. auto with respects typeclass_instances.
Qed.

Lemma initial_store_ok : store_ok initial_world.
Proof. split; [apply catalog_le_refl | constructor]. Qed.

Lemma serve_all_store_ok (reqs : list (Env * Request)) :
  forall w, store_ok w -> store_ok (serve_all reqs w).
Proof.
  induction reqs as [| [env req] reqs IH]; intros w Hw; simpl; [exact Hw |].
  apply IH. pose proof (hoare_serve req env w Hw) as H.
  destruct (serve req env w) as [[resp | e] w']; exact H.
Qed.

(** Every row the server has ever written is the text of a result object:
    the table of a store the server has reached satisfies what the
    statement about the history asks of it. *)
Lemma serve_all_logged (reqs : list (Env * Request)) :
  Forall logged_result (detection_logs (serve_all reqs initial_world)).
Proof. apply (serve_all_store_ok reqs initial_world initial_store_ok). Qed.

(** C10: with two valid files the result is one of the five objects of
    [simulatedResponses] itself: the assignment of [processingSteps]
    writes that object in the array and leaves the other four alone, and
    after any further requests the object still carries the property. *)
Theorem analyze_valid_writes_catalog (env : Env) (w : World) :
  draws_in_range env -> catalog_ok (catalog w) ->
  exists i o w',
    analyze true true env w = (Return (Shared i, false), w') /\
    length (catalog w) = 5%nat /\
    catalog w !! i = Some o /\
    catalog w' !! i = Some (set_processingSteps valid_steps o) /\
    (forall j, j <> i -> catalog w' !! j = catalog w !! j) /\
    (forall reqs, exists o',
        catalog (serve_all reqs w') !! i = Some o' /\
        processingSteps o' = Some valid_steps).
Proof.
  intros Hd Hc.
  destruct (analyze_valid env w Hd Hc) as [i [o [Hi Hrun]]].
  eexists i, o, _. split; [exact Hrun |].
  split; [apply catalog_ok_length; exact Hc |].
  split; [exact Hi |].
  assert (Hi' : catalog (set_catalog (alter (set_processingSteps valid_steps) i (catalog w))
                           (set_draws (S (draws w)) w)) !! i
                = Some (set_processingSteps valid_steps o)).
  { simpl. rewrite list_lookup_alter_eq, Hi. reflexivity. }
  split; [exact Hi' |]. split.
  - intros j Hj. simpl. apply list_lookup_alter_ne. auto.
  - intro reqs.
    eapply catalog_le_keeps_steps; [apply serve_all_catalog_le | exact Hi' | reflexivity].
Qed.

Lemma analyze_valid_writes_catalog_witness :
  exists i o w',
    analyze true true example_env initial_world = (Return (Shared i, false), w') /\
    length (catalog initial_world) = 5%nat /\
    catalog initial_world !! i = Some o /\
    catalog w' !! i = Some (set_processingSteps valid_steps o) /\
    (forall j, j <> i -> catalog w' !! j = catalog initial_world !! j) /\
    (forall reqs, exists o',
        catalog (serve_all reqs w') !! i = Some o' /\
        processingSteps o' = Some valid_steps).
Proof.
  apply (analyze_valid_writes_catalog example_env initial_world).
  - exact example_env_draws.
  - exact initial_catalog_ok.
Defined.

(** On a freshly started server no object of the array has the property;
    one request with two valid files later the third one has it, and a
    later request for the history sees it still. *)
Example catalog_after_one_request :
  processingSteps <$> catalog initial_world = [None; None; None; None; None] /\
  processingSteps <$>
    catalog (serve_all [(example_env, POST_api_detect (Multipart example_parts));
                        (example_env, GET_api_history)] initial_world)
  = [None; None; Some valid_steps; None; None].
Proof. split; vm_compute; reflexivity. Qed.

(** ** JSON: parsing what stringify wrote *)


Section RoundTrip.

Local Open Scope list_scope.

Lemma delimited_no_digit (rest : list ascii) :
  delimited rest -> read_uint rest = (Decimal.Nil, rest).
Proof.
  destruct rest as [| c rest]; [reflexivity |].
  intros [-> | [-> | ->]]; reflexivity.
Qed.

Lemma delimited_no_fraction (rest : list ascii) :
  delimited rest -> starts_fraction_or_exponent rest = false.
Proof.
  destruct rest as [| c rest]; [reflexivity |].
  intros [-> | [-> | ->]]; reflexivity.
Qed.

Lemma read_uint_chars (u : Decimal.uint) (rest : list ascii) :
  delimited rest -> read_uint (uint_chars u ++ rest) = (u, rest).
Proof.
  intro Hrest. induction u; simpl; try rewrite IHu; try reflexivity.
  apply delimited_no_digit. exact Hrest.
Qed.

(** The digits of a positive number do not begin with 0. *)
Lemma to_uint_no_leading_zero (p : positive) (u : Decimal.uint) :
  Pos.to_uint p <> Decimal.D0 u.
Proof.
  intro Hp.
  pose proof (DecimalPos.Unsigned.to_of (Pos.to_uint p)) as Hnorm.
  rewrite DecimalPos.Unsigned.of_to in Hnorm. simpl in Hnorm.
  destruct (Decimal.nzhead (Pos.to_uint p)) eqn:Hhead.
  1: { apply DecimalFacts.unorm_0 in Hhead. rewrite Hhead in Hnorm.
       exact (DecimalPos.Unsigned.to_uint_nonzero p Hnorm). }
  all: rewrite DecimalFacts.unorm_nzhead in Hnorm by (rewrite Hhead; discriminate);
       rewrite Hp in Hnorm; symmetry in Hnorm;
       exact (DecimalFacts.nzhead_nonzero _ _ Hnorm).
Qed.

Lemma of_uint_to_uint (p : positive) : Z.of_uint (Pos.to_uint p) = Z.pos p.
Proof.
  unfold Z.of_uint. rewrite DecimalPos.Unsigned.of_to. reflexivity.
Qed.

Lemma uint_chars_head (u : Decimal.uint) :
  u <> Decimal.Nil -> exists c tl, uint_chars u = c :: tl /\ is_digit c = true.
Proof.
  destruct u; intro Hu; try contradiction; eexists _, _; split; reflexivity.
Qed.

Lemma digit_not_minus (c : ascii) : is_digit c = true -> Ascii.eqb c "-" = false.
Proof.
  intro Hc. destruct (Ascii.eqb_spec c "-") as [-> |]; [discriminate Hc | reflexivity].
Qed.

Lemma parse_number_positive (p : positive) (negative : bool) (rest : list ascii) :
  delimited rest ->
  parse_number ((if negative then ["-"%char] else []) ++ uint_chars (Pos.to_uint p) ++ rest)
  = Some (JNumber (if negative then Z.neg p else Z.pos p), rest).
Proof.
  intro Hrest.
  destruct (uint_chars_head (Pos.to_uint p) (DecimalPos.Unsigned.to_uint_nonnil p))
    as [c [tl [Hchars Hdigit]]].
  assert (Hbody :
    (let (u, rest') := read_uint (uint_chars (Pos.to_uint p) ++ rest) in
     match u with
     | Decimal.Nil => None
     | Decimal.D0 Decimal.Nil =>
         if starts_fraction_or_exponent rest' then None else Some (JNumber 0, rest')
     | Decimal.D0 _ => None
     | _ =>
         if starts_fraction_or_exponent rest' then None
         else Some (JNumber (if negative then - Z.of_uint u else Z.of_uint u), rest')
     end) = Some (JNumber (if negative then Z.neg p else Z.pos p), rest)).
  { rewrite (read_uint_chars _ _ Hrest), (delimited_no_fraction _ Hrest).
    pose proof (to_uint_no_leading_zero p) as Hzero.
    pose proof (DecimalPos.Unsigned.to_uint_nonnil p) as Hnil.
    pose proof (of_uint_to_uint p) as Hval.
    destruct (Pos.to_uint p) as [| u | u | u | u | u | u | u | u | u | u];
      try (exfalso; apply Hnil; reflexivity);
      try (exfalso; apply (Hzero u); reflexivity);
      rewrite Hval; destruct negative; reflexivity. }
  unfold parse_number. destruct negative.
  - simpl app at 1. cbn [Ascii.eqb Bool.eqb]. exact Hbody.
  - simpl app at 1. rewrite Hchars. rewrite <- app_comm_cons.
    rewrite (digit_not_minus c Hdigit). rewrite app_comm_cons, <- Hchars. exact Hbody.
Qed.

Lemma parse_number_chars (n : Z) (rest : list ascii) :
  delimited rest -> parse_number (number_chars n ++ rest) = Some (JNumber n, rest).
Proof.
  intro Hrest. destruct n as [| p | p].
  - unfold parse_number. simpl.
    rewrite (delimited_no_digit _ Hrest), (delimited_no_fraction _ Hrest). reflexivity.
  - exact (parse_number_positive p false rest Hrest).
  - exact (parse_number_positive p true rest Hrest).
Qed.


(** One character of a string: what [parse_string] makes of its escape. *)
Lemma parse_string_escape_char (c : ascii) (tl : list ascii) :
  parse_string (escape_char c ++ tl) = cons_char c (parse_string tl).
Proof.
  destruct c as [[] [] [] [] [] [] [] []]; reflexivity.
Qed.

Lemma parse_string_escape (s : string) (rest : list ascii) :
  parse_string (escape s ++ "034"%char :: rest) = Some (s, rest).
Proof.
  induction s as [| c s IH]; [reflexivity |].
  cbn [escape]. rewrite <- app_assoc, parse_string_escape_char, IH. reflexivity.
Qed.


(** Induction on a value with the hypothesis for every element and every
    property value. *)
Lemma value_ind_nested (P : value -> Prop) :
  P JNull ->
  (forall b, P (JBool b)) ->
  (forall n, P (JNumber n)) ->
  (forall s, P (JString s)) ->
  (forall l, Forall P l -> P (JArray l)) ->
  (forall l, Forall (fun kv => P (snd kv)) l -> P (JObject l)) ->
  forall v, P v.
Proof.
  intros HN HB HZ HS HA HO. fix IH 1. intros [| b | n | s | l | l].
  - exact HN.
  - apply HB.
  - apply HZ.
  - apply HS.
  - apply HA. induction l as [| x l IHl]; constructor; [apply IH | exact IHl].
  - apply HO. induction l as [| [k x] l IHl]; constructor; [apply IH | exact IHl].
Qed.

(** [parse_value], one step at a time. *)
Lemma parse_value_string (fuel : nat) (r : list ascii) :
  parse_value (S fuel) ("034"%char :: r) =
    match parse_string r with
    | Some (str, r') => Some (JString str, r')
    | None => None
    end.
Proof. reflexivity. Qed.

Lemma parse_value_array (fuel : nat) (r : list ascii) :
  parse_value (S fuel) ("["%char :: r) =
    match skip_ws r with
    | c' :: r' =>
        if Ascii.eqb c' "]" then Some (JArray [], r')
        else
          match parse_elements fuel r with
          | Some (l, r'') => Some (JArray l, r'')
          | None => None
          end
    | [] => None
    end.
Proof. reflexivity. Qed.

Lemma parse_value_object (fuel : nat) (r : list ascii) :
  parse_value (S fuel) ("{"%char :: r) =
    match skip_ws r with
    | c' :: r' =>
        if Ascii.eqb c' "}" then Some (JObject [], r')
        else
          match parse_members fuel r with
          | Some (l, r'') => Some (JObject (build_object l), r'')
          | None => None
          end
    | [] => None
    end.
Proof. reflexivity. Qed.

Lemma parse_elements_step (fuel : nat) (s : list ascii) :
  parse_elements (S fuel) s =
    match parse_value fuel s with
    | Some (v, r) =>
        match skip_ws r with
        | c :: r' =>
            if Ascii.eqb c "," then
              match parse_elements fuel r' with
              | Some (l, r'') => Some (v :: l, r'')
              | None => None
              end
            else if Ascii.eqb c "]" then Some ([v], r')
            else None
        | [] => None
        end
    | None => None
    end.
Proof. reflexivity. Qed.

Lemma parse_members_step (fuel : nat) (k : string) (r0 : list ascii) :
  parse_members (S fuel) ("034"%char :: r0) =
    match parse_string r0 with
    | Some (k, r1) =>
        match skip_ws r1 with
        | colon :: r2 =>
            if Ascii.eqb colon ":" then
              match parse_value fuel r2 with
              | Some (v, r3) =>
                  match skip_ws r3 with
                  | c :: r4 =>
                      if Ascii.eqb c "," then
                        match parse_members fuel r4 with
                        | Some (l, r5) => Some ((k, v) :: l, r5)
                        | None => None
                        end
                      else if Ascii.eqb c "}" then Some ([(k, v)], r4)
                      else None
                  | [] => None
                  end
              | None => None
              end
            else None
        | [] => None
        end
    | None => None
    end.
Proof. reflexivity. Qed.

Lemma parse_value_number (fuel : nat) (c : ascii) (r : list ascii) :
  number_start c = true -> parse_value (S fuel) (c :: r) = parse_number (c :: r).
Proof.
  destruct c as [[] [] [] [] [] [] [] []]; intro Hc; try discriminate Hc; reflexivity.
Qed.

Lemma number_start_not_closing (c : ascii) :
  number_start c = true ->
  is_ws c = false /\ Ascii.eqb c "]" = false /\ Ascii.eqb c "}" = false.
Proof.
  destruct c as [[] [] [] [] [] [] [] []]; intro Hc; try discriminate Hc;
    repeat split; reflexivity.
Qed.

Lemma number_chars_head (n : Z) :
  exists c tl, number_chars n = c :: tl /\ number_start c = true.
Proof.
  destruct n as [| p | p].
  - eexists _, _. split; reflexivity.
  - destruct (uint_chars_head (Pos.to_uint p) (DecimalPos.Unsigned.to_uint_nonnil p))
      as [c [tl [Hchars Hdigit]]].
    exists c, tl. split; [exact Hchars |]. unfold number_start. rewrite Hdigit. reflexivity.
  - eexists _, _. split; reflexivity.
Qed.

(** A text written by [emit] begins with a character that is neither
    white space nor a closing bracket. *)
Lemma emit_head (v : value) :
  exists c tl,
    emit v = c :: tl /\
    is_ws c = false /\ Ascii.eqb c "]" = false /\ Ascii.eqb c "}" = false.
Proof.
  destruct v as [| [] | n | s | l | l]; try (eexists _, _; repeat split; reflexivity).
  destruct (number_chars_head n) as [c [tl [Hchars Hstart]]].
  exists c, tl. split; [exact Hchars |]. apply number_start_not_closing. exact Hstart.
Qed.

Lemma emit_length_pos (v : value) : (1 <= length (emit v))%nat.
Proof.
  destruct (emit_head v) as [c [tl [Hv _]]]. rewrite Hv. simpl. lia.
Qed.

Lemma skip_ws_head (c : ascii) (tl : list ascii) :
  is_ws c = false -> skip_ws (c :: tl) = c :: tl.
Proof. intro Hc. simpl. rewrite Hc. reflexivity. Qed.

Lemma join_comma_cons (t t' : list ascii) (texts : list (list ascii)) :
  join_comma (t :: t' :: texts) = t ++ ","%char :: join_comma (t' :: texts).
Proof. reflexivity. Qed.

Lemma parse_elements_join (l : list value) :
  Forall parses l -> l <> [] ->
  forall fuel rest,
    (length (join_comma (map emit l)) < fuel)%nat ->
    parse_elements fuel (join_comma (map emit l) ++ "]"%char :: rest) = Some (l, rest).
Proof.
  induction l as [| x l IH]; intros Hall Hne fuel rest Hfuel; [contradiction |].
  inversion Hall as [| x' l' Hx Hl]; subst.
  destruct fuel as [| fuel]; [lia |].
  rewrite parse_elements_step.
  destruct l as [| y l].
  - cbn [map join_comma] in *.
    rewrite (Hx fuel ("]"%char :: rest)); [reflexivity | right; left; reflexivity | lia].
  - change (map emit (x :: y :: l)) with (emit x :: map emit (y :: l)) in *.
    change (map emit (y :: l)) with (emit y :: map emit l) in *.
    rewrite join_comma_cons in *.
    rewrite length_app in Hfuel. cbn [length] in Hfuel.
    rewrite <- app_assoc. cbn [app].
    rewrite (Hx fuel); [| left; reflexivity | lia].
    cbn [skip_ws is_ws Ascii.eqb Bool.eqb orb].
    rewrite IH; [reflexivity | exact Hl | discriminate | lia].
Qed.

Lemma parse_members_join (l : list (string * value)) :
  Forall (fun kv => parses (snd kv)) l -> l <> [] ->
  forall fuel rest,
    (length (join_comma (map member_text l)) < fuel)%nat ->
    parse_members fuel (join_comma (map member_text l) ++ "}"%char :: rest) = Some (l, rest).
Proof.
  induction l as [| [k x] l IH]; intros Hall Hne fuel rest Hfuel; [contradiction |].
  inversion Hall as [| kv' l' Hx Hl]; subst. cbn [snd] in Hx.
  destruct fuel as [| fuel]; [lia |].
  assert (Hlen : (length (member_text (k, x)) = length (quote k) + S (length (emit x)))%nat).
  { unfold member_text. rewrite length_app. reflexivity. }
  destruct l as [| y l].
  - cbn [map join_comma] in *.
    unfold member_text at 1. cbn [fst snd]. unfold quote.
    repeat first [progress cbn [app] | rewrite <- app_assoc].
    rewrite (parse_members_step fuel k), parse_string_escape.
    cbn [skip_ws is_ws Ascii.eqb Bool.eqb orb].
    rewrite (Hx fuel ("}"%char :: rest)); [reflexivity | right; right; reflexivity | lia].
  - change (map member_text ((k, x) :: y :: l))
      with (member_text (k, x) :: map member_text (y :: l)) in *.
    change (map member_text (y :: l)) with (member_text y :: map member_text l) in *.
    rewrite join_comma_cons in *.
    rewrite length_app in Hfuel. cbn [length] in Hfuel.
    unfold member_text at 1. cbn [fst snd]. unfold quote.
    repeat first [progress cbn [app] | rewrite <- app_assoc].
    rewrite (parse_members_step fuel k), parse_string_escape.
    cbn [skip_ws is_ws Ascii.eqb Bool.eqb orb].
    rewrite (Hx fuel); [| left; reflexivity | lia].
    cbn [skip_ws is_ws Ascii.eqb Bool.eqb orb].
    rewrite IH; [reflexivity | exact Hl | discriminate | lia].
Qed.

Lemma set_property_fresh (o : list (string * value)) (k : string) (v : value) :
  ~ In k (map fst o) -> set_property o k v = o ++ [(k, v)].
Proof.
  induction o as [| [k' v'] o IH]; intro Hk; [reflexivity |].
  cbn [set_property]. destruct (String.eqb_spec k' k) as [-> | _].
  - exfalso. apply Hk. left. reflexivity.
  - cbn [app]. f_equal. apply IH. intro Hin. apply Hk. right. exact Hin.
Qed.

Lemma build_object_fresh (l acc : list (string * value)) :
  NoDup (map fst (acc ++ l)) ->
  fold_left (fun o kv => set_property o (fst kv) (snd kv)) l acc = acc ++ l.
Proof.
  revert acc. induction l as [| [k v] l IH]; intros acc Hnd.
  - rewrite app_nil_r. reflexivity.
  - cbn [fold_left fst snd].
    rewrite set_property_fresh.
    + rewrite IH; rewrite <- app_assoc; [reflexivity | exact Hnd].
    + rewrite map_app in Hnd. cbn [map fst] in Hnd.
      apply NoDup_app in Hnd. destruct Hnd as [_ [Hfresh _]].
      intro Hin. apply list_elem_of_In in Hin.
      exact (Hfresh k Hin (list_elem_of_here k _)).
Qed.

(** Every value parses back from its text. *)
Lemma parse_value_emit (v : value) : wf v -> parses v.
Proof.
  induction v as [| b | n | s | l IH | l IH] using value_ind_nested;
    intros Hwf fuel rest Hrest Hfuel.
  - destruct fuel; [simpl in Hfuel; lia | reflexivity].
  - destruct fuel; [destruct b; simpl in Hfuel; lia | destruct b; reflexivity].
  - pose proof (emit_length_pos (JNumber n)) as Hpos.
    destruct fuel; [lia |]. cbn [emit].
    destruct (number_chars_head n) as [c [tl [Hchars Hstart]]].
    rewrite Hchars. rewrite <- app_comm_cons.
    rewrite (parse_value_number fuel c _ Hstart).
    rewrite app_comm_cons, <- Hchars. apply parse_number_chars. exact Hrest.
  - destruct fuel; [simpl in Hfuel; lia |]. cbn [emit]. unfold quote.
    cbn [app]. rewrite <- app_assoc. cbn [app].
    rewrite parse_value_string, parse_string_escape. reflexivity.
  - inversion Hwf as [| | | | l' Hl |]; subst.
    destruct fuel; [simpl in Hfuel; lia |]. cbn [emit app]. cbn [emit length] in Hfuel.
    rewrite length_app in Hfuel. cbn [length] in Hfuel.
    rewrite <- app_assoc. cbn [app]. rewrite parse_value_array.
    destruct l as [| x l]; [reflexivity |].
    destruct (emit_head x) as [c [tl [Hx [Hws [Hclose _]]]]].
    assert (Hskip : exists tl', skip_ws (join_comma (map emit (x :: l)) ++ "]"%char :: rest)
                                = c :: tl').
    { cbn [map join_comma]. rewrite Hx.
      destruct l; cbn [map]; rewrite <- ?app_assoc, <- ?app_comm_cons;
        rewrite (skip_ws_head c _ Hws); eexists; reflexivity. }
    destruct Hskip as [tl' ->]. rewrite Hclose.
    rewrite parse_elements_join; [reflexivity | | discriminate | lia].
    apply Forall_forall. intros a Ha.
    rewrite Forall_forall in IH, Hl. exact (IH a Ha (Hl a Ha)).
  - inversion Hwf as [| | | | | l' Hnd Hl]; subst.
    destruct fuel; [simpl in Hfuel; lia |]. cbn [emit app]. cbn [emit length] in Hfuel.
    rewrite length_app in Hfuel. cbn [length] in Hfuel.
    rewrite <- app_assoc. cbn [app]. rewrite parse_value_object.
    destruct l as [| [k x] l]; [reflexivity |].
    change (map (fun kv => quote (fst kv) ++ ":"%char :: emit (snd kv)) ((k, x) :: l))
      with (map member_text ((k, x) :: l)) in *.
    assert (Hskip : exists tl', skip_ws (join_comma (map member_text ((k, x) :: l))
                                         ++ "}"%char :: rest) = "034"%char :: tl').
    { cbn [map join_comma]. unfold member_text at 1. unfold quote.
      destruct l; cbn [map app]; rewrite <- ?app_assoc;
        cbn [app skip_ws is_ws Ascii.eqb Bool.eqb orb]; eexists; reflexivity. }
    destruct Hskip as [tl' ->]. cbn [Ascii.eqb Bool.eqb].
    rewrite parse_members_join; [| | discriminate | lia].
    + unfold build_object. rewrite build_object_fresh; [reflexivity | exact Hnd].
    + apply Forall_forall. intros a Ha.
      rewrite Forall_forall in IH, Hl. exact (IH a Ha (Hl a Ha)).
Qed.

(** [JSON.parse(JSON.stringify(v))] is [v]. *)
Lemma parse_stringify (v : value) : wf v -> parse (stringify v) = Some v.
Proof.
  intro Hwf. unfold parse, stringify.
  rewrite list_ascii_of_string_of_list_ascii.
  pose proof (parse_value_emit v Hwf (S (length (emit v))) [] I) as Hparse.
  rewrite app_nil_r in Hparse. rewrite Hparse; [reflexivity | lia].
Qed.

End RoundTrip.

(** Two texts, one read and one written. *)
Example parse_example :
  parse " [1, -20, true, null, [ ], {}] "
  = Some (JArray [JNumber 1; JNumber (-20); JBool true; JNull;
                       JArray []; JObject []]).
Proof. vm_compute. reflexivity. Qed.

Example stringify_example :
  emit (JObject [("a", JArray [JNumber 1; JBool false]);
                           ("b", JString "x")])
  = ["{"; "034"; "a"; "034"; ":"; "["; "1"; ","; "f"; "a"; "l"; "s"; "e"; "]"; ",";
     "034"; "b"; "034"; ":"; "034"; "x"; "034"; "}"]%char.
Proof. vm_compute. reflexivity. Qed.

(** ** Results through the log *)

Lemma Step_value_wf (s : Step) : wf (Step_value s).
Proof.
  unfold Step_value. constructor.
  - apply NoDup_ListNoDup.
    repeat (constructor; [simpl; intuition discriminate |]). constructor.
  - repeat constructor.
Qed.

Lemma Result_value_wf (r : Result) : wf (Result_value r).
Proof.
  unfold Result_value. constructor.
  - apply NoDup_ListNoDup.
    destruct (processingSteps r);
      repeat (constructor; [simpl; intuition discriminate |]); constructor.
  - destruct (processingSteps r) as [steps |]; simpl.
    + do 5 (constructor; [simpl; first [apply wf_string | apply wf_number] |]).
      constructor; [| constructor]. simpl. apply wf_array.
      induction steps as [| s steps IH]; simpl; constructor;
        [apply Step_value_wf | exact IH].
    + do 5 (constructor; [simpl; first [apply wf_string | apply wf_number] |]).
      constructor.
Qed.

Lemma Result_round_trip (r : Result) :
  parse (stringify (Result_value r)) = Some (Result_value r).
Proof. apply parse_stringify. apply Result_value_wf. Qed.

(** C7: the text [JSON.stringify] writes for a result when the row is
    inserted is parsed by [JSON.parse], when the history is read, to a
    value equal to the result: the same properties in the same order with
    the same values. *)
Theorem result_stringify_parse (r : Result) :
  safe_result r ->
  parse (stringify (Result_value r)) = Some (Result_value r).
Proof. intros _. apply Result_round_trip. Qed.

Lemma result_stringify_parse_witness :
  parse (stringify (Result_value
           (mkResult "invalid" "Invalid Image Detected"
              "Sample 1: Image quality too low for analysis" 0 "red" (Some invalid_steps))))
  = Some (Result_value
           (mkResult "invalid" "Invalid Image Detected"
              "Sample 1: Image quality too low for analysis" 0 "red" (Some invalid_steps))).
Proof.
  apply result_stringify_parse. split.
  - unfold safe_integer. simpl. lia.
  - simpl. repeat constructor; unfold safe_integer; simpl; lia.
Defined.

(** ** GET /api/history *)

Lemma insert_desc_Forall (P : Row -> Prop) (r : Row) (l : list Row) :
  P r -> Forall P l -> Forall P (insert_desc r l).
Proof.
  intros Hr Hl. induction Hl as [| x l Hx Hl IH]; simpl.
  - constructor; [exact Hr | constructor].
  - destruct (String.leb (created_at x) (created_at r)).
    + constructor; [exact Hr |]. constructor; assumption.
    + constructor; assumption.
Qed.

Lemma order_by_created_at_desc_Forall (P : Row -> Prop) (rows : list Row) :
  Forall P rows -> Forall P (order_by_created_at_desc rows).
Proof.
  intro H. induction H as [| x l Hx Hl IH]; simpl.
  - constructor.
  - apply insert_desc_Forall; assumption.
Qed.

Lemma insert_desc_length (r : Row) (l : list Row) :
  length (insert_desc r l) = S (length l).
Proof.
  induction l as [| x l IH]; simpl; [reflexivity |].
  destruct (String.leb (created_at x) (created_at r)); simpl; [reflexivity |].
  rewrite IH. reflexivity.
Qed.

Lemma order_by_created_at_desc_length (rows : list Row) :
  length (order_by_created_at_desc rows) = length rows.
Proof.
  induction rows as [| x l IH]; simpl; [reflexivity |].
  rewrite insert_desc_length, IH. reflexivity.
Qed.

Lemma insert_desc_HdRel (a r : Row) (l : list Row) :
  newer_row a r -> HdRel newer_row a l -> HdRel newer_row a (insert_desc r l).
Proof.
  intros Har Hal. destruct l as [| x l]; simpl.
  - constructor. exact Har.
  - destruct (String.leb (created_at x) (created_at r)); constructor.
    + exact Har.
    + inversion Hal. assumption.
Qed.

Lemma insert_desc_Sorted (r : Row) (l : list Row) :
  Sorted newer_row l -> Sorted newer_row (insert_desc r l).
Proof.
  intro Hs. induction Hs as [| x l Hs IH Hhd]; simpl.
  - constructor; constructor.
  - destruct (String.leb (created_at x) (created_at r)) eqn:Hle.
    + constructor; [constructor; assumption |]. constructor. exact Hle.
    + constructor; [exact IH |]. apply insert_desc_HdRel; [| exact Hhd].
      unfold newer_row. destruct (String.leb_total (created_at x) (created_at r)) as [H | H].
      * rewrite H in Hle. discriminate Hle.
      * exact H.
Qed.

Lemma order_by_created_at_desc_Sorted (rows : list Row) :
  Sorted newer_row (order_by_created_at_desc rows).
Proof.
  induction rows as [| x l IH]; simpl; [constructor |].
  apply insert_desc_Sorted. exact IH.
Qed.

(** The sort only rearranges the rows. *)
Lemma order_by_created_at_desc_Permutation (rows : list Row) :
  Permutation (order_by_created_at_desc rows) rows.
Proof.
  induction rows as [| x l IH]; simpl; [constructor |].
  transitivity (x :: order_by_created_at_desc l); [| constructor; exact IH].
  generalize (order_by_created_at_desc l). clear IH. intro s.
  induction s as [| y s IHs]; simpl; [reflexivity |].
  destruct (String.leb (created_at y) (created_at x)); [reflexivity |].
  transitivity (y :: x :: s); [constructor; exact IHs | constructor].
Qed.

Lemma firstn_Sorted {A} (R : A -> A -> Prop) (n : nat) (l : list A) :
  Sorted R l -> Sorted R (firstn n l).
Proof.
  revert l. induction n as [| n IH]; intros l Hs; [constructor |].
  inversion Hs as [| x l' Hs' Hhd]; subst; simpl; [constructor |].
  constructor; [apply IH; exact Hs' |].
  inversion Hhd as [| y l'' Hxy]; subst; [destruct n; constructor |].
  destruct n; constructor. exact Hxy.
Qed.

Lemma select_recent_Sorted (rows : list Row) : Sorted newer_row (select_recent rows).
Proof. apply firstn_Sorted. apply order_by_created_at_desc_Sorted. Qed.

Lemma select_recent_length (rows : list Row) :
  length (select_recent rows) = Nat.min 10 (length rows).
Proof.
  unfold select_recent. rewrite length_firstn, order_by_created_at_desc_length. reflexivity.
Qed.

Lemma select_recent_Forall (P : Row -> Prop) (rows : list Row) :
  Forall P rows -> Forall P (select_recent rows).
Proof.
  intro H. unfold select_recent. apply Forall_take.
  apply order_by_created_at_desc_Forall. exact H.
Qed.

Lemma entry_of_row_logged (env : Env) (w : World) (row : Row) :
  logged_result row ->
  exists e, entry_of_row row env w = (Return e, w) /\ entry_matches row e.
Proof.
  intros [r [_ Htext]]. unfold entry_of_row.
  assert (Hparse : parse (result row) = Some (Result_value r))
    by (rewrite Htext; apply Result_round_trip).
  rewrite Hparse. eexists. split; [reflexivity |].
  repeat split; try reflexivity; [exact Hparse | exists r; reflexivity].
Qed.

Lemma map_eff_entry_of_row (env : Env) (w : World) (rows : list Row) :
  Forall logged_result rows ->
  exists entries,
    map_eff entry_of_row rows env w = (Return entries, w) /\
    Forall2 entry_matches rows entries.
Proof.
  intro H. induction H as [| row rows Hrow Hrows [entries [Hrun Hall]]].
  - exists []. split; [reflexivity | constructor].
  - destruct (entry_of_row_logged env w row Hrow) as [e [He Hm]].
    exists (e :: entries). split; [| constructor; assumption].
    cbn [map_eff]. unfold bind. rewrite He, Hrun. reflexivity.
Qed.

Lemma entries_Sorted (rows : list Row) (entries : list HistoryEntry) :
  Forall2 entry_matches rows entries -> Sorted newer_row rows -> Sorted newer_entry entries.
Proof.
  intro H. induction H as [| row e rows entries Hm Hall IH]; intro Hs; [constructor |].
  inversion Hs as [| row' rows' Hs' Hhd]; subst.
  constructor; [apply IH; exact Hs' |].
  destruct Hall as [| row2 e2 rows2 entries2 Hm2 _]; [constructor |].
  constructor. inversion Hhd as [| b l Hnew]; subst.
  unfold newer_entry, newer_row in *.
  destruct Hm as [_ [_ [_ [-> _]]]], Hm2 as [_ [_ [_ [-> _]]]]. exact Hnew.
Qed.

(** C5: when the query succeeds on a table written by the detect handler,
    whatever the order in which its rows were inserted, the history holds
    at most 10 entries, from the newest [created_at] to the oldest, and
    each entry is its row with [result] parsed into a result object. *)
Theorem history_handler_recent (env : Env) (w : World) :
  select_error env = false ->
  Forall logged_result (detection_logs w) ->
  exists entries,
    history_handler env w
      = (Return (mkResponse 200 (HistoryBody entries)), add_event EvSelect w) /\
    (length entries <= 10)%nat /\
    length entries = Nat.min 10 (length (detection_logs w)) /\
    Sorted newer_entry entries /\
    Forall2 entry_matches (select_recent (detection_logs w)) entries.
Proof.
  intros Herr Hrows.
  destruct (map_eff_entry_of_row env (add_event EvSelect w)
              (select_recent (detection_logs w))
              (select_recent_Forall _ _ Hrows)) as [entries [Hrun Hall]].
  exists entries.
  assert (Hlen : length entries = Nat.min 10 (length (detection_logs w))).
  { rewrite <- (Forall2_length _ _ _ Hall). apply select_recent_length. }
  split; [| split; [lia | split; [exact Hlen | split; [| exact Hall]]]].
  - unfold history_handler, bind, modify, ask, get. rewrite Herr.
    replace (detection_logs (add_event EvSelect w)) with (detection_logs w)
      by (destruct w; reflexivity).
    rewrite Hrun. reflexivity.
  - eapply entries_Sorted; [exact Hall | apply select_recent_Sorted].
Qed.

Lemma example_world_logs :
  detection_logs example_world =
    [ mkRow 1 "1700000000000-500000000-leaf1.jpg" "1700000000000-500000000-leaf2.jpg"
        (stringify (Result_value example_result)) "2024-01-01 10:00:00";
      mkRow 2 "1700000020000-500000000-leaf1.jpg" "1700000020000-500000000-leaf2.jpg"
        (stringify (Result_value example_result)) "2024-01-01 10:00:20" ].
Proof. vm_compute. reflexivity. Defined.

Lemma example_world_logged : Forall logged_result (detection_logs example_world).
Proof.
  rewrite example_world_logs.
  repeat (constructor;
          [exists example_result; split;
           [split; [unfold safe_integer; simpl; lia
                   | simpl; repeat constructor; unfold safe_integer; simpl; lia]
           | reflexivity] |]).
  constructor.
Defined.

Lemma history_handler_recent_witness :
  exists entries,
    history_handler example_env example_world
      = (Return (mkResponse 200 (HistoryBody entries)), add_event EvSelect example_world) /\
    (length entries <= 10)%nat /\
    length entries = Nat.min 10 (length (detection_logs example_world)) /\
    Sorted newer_entry entries /\
    Forall2 entry_matches (select_recent (detection_logs example_world)) entries.
Proof.
  apply (history_handler_recent example_env example_world).
  - reflexivity.
  - exact example_world_logged.
Defined.

(** The newest row comes first. *)
Example history_newest_first :
  match fst (history_handler example_env example_world) with
  | Return (mkResponse 200 (HistoryBody entries)) =>
      map (fun e => (h_id e, h_created_at e, h_result e)) entries
  | _ => []
  end
  = [ (2, "2024-01-01 10:00:20", Result_value example_result);
      (1, "2024-01-01 10:00:00", Result_value example_result) ].
Proof. vm_compute. reflexivity. Qed.

(** * Further properties *)

(** ** The array and the canned outcomes *)

(** X1: in every store the server reaches, the array [simulatedResponses]
    still has its five objects with the status, title, message, confidence
    and colour of the literals, and each object has either no
    [processingSteps] or the three completed steps. *)
Theorem reachable_catalog_literals (reqs : list (Env * Request)) :
  length (catalog (serve_all reqs initial_world)) = 5%nat /\
  erase_processingSteps <$> catalog (serve_all reqs initial_world) = simulatedResponses /\
  Forall (fun o => processingSteps o = None \/ processingSteps o = Some valid_steps)
         (catalog (serve_all reqs initial_world)).
Proof.
  pose proof (serve_all_catalog_le reqs initial_world) as Hle.
  assert (Hok : catalog_ok (catalog (serve_all reqs initial_world)))
    by (eapply catalog_le_ok; [exact Hle | exact initial_catalog_ok]).
  split; [apply catalog_ok_length; exact Hok |]. split; [exact Hok |].
  change (catalog initial_world) with simulatedResponses in Hle.
  revert Hle. generalize (catalog (serve_all reqs initial_world)). intros c Hle.
  assert (Hnone : Forall (fun o => processingSteps o = None) simulatedResponses)
    by (repeat constructor).
  induction Hle as [| o o' l l' Ho _ IH]; [constructor |].
  inversion Hnone as [| o0 l0 Ho0 Hl0]; subst.
  constructor; [| apply IH; exact Hl0].
  destruct Ho as [-> | ->]; [left; exact Ho0 | right; reflexivity].
Qed.

Lemma simulatedResponses_lookup (i : nat) (literal : Result) :
  simulatedResponses !! i = Some literal ->
  In (status literal) ["healthy"; "warning"; "critical"; "mild"; "moderate"] /\
  0 <= confidence literal <= 100.
Proof.
  intro Hlit.
  do 5 (destruct i as [| i];
        [injection Hlit as <-; simpl; split; [tauto | lia] |]).
  discriminate Hlit.
Qed.

Lemma getRandomResponse_index (env : Env) (w : World) :
  draws_in_range env -> catalog_ok (catalog w) ->
  exists o,
    catalog w !! drawn_index env w = Some o /\
    getRandomResponse env w = (Return (Some (drawn_index env w)), set_draws (S (draws w)) w).
Proof.
  intros Hd Hc. destruct (Hd (draws w)) as [Hn [H0 H1]].
  unfold getRandomResponse, bind, Math_random, get, ret, drawn_index.
  cbn [catalog set_draws]. rewrite (catalog_ok_length _ Hc).
  change (Z.of_nat 5) with 5.
  destruct (array_get_in_range (catalog w)
              (Math_floor (Number_mul (Math_random_values env (draws w)) (inject_Z 5))))
    as [o [Hget Hlookup]].
  { rewrite (catalog_ok_length _ Hc).
    apply floor_draw_range; [exact Hn | exact H0 | exact H1 | right; reflexivity]. }
  exists o. split; [exact Hlookup |].
  rewrite Hget. reflexivity.
Qed.

(** X2: with two valid files the result is the object of the array at the
    index [Math.floor] of the binary64 product of the draw and 5 (the
    object itself, not a copy), after the three completed steps have been
    written into it; it has the literal's status (never [invalid]), title,
    message, confidence (between 0 and 100) and colour, and one number has
    been drawn. *)
Theorem analyze_valid_canned (env : Env) (w : World) :
  draws_in_range env -> catalog_ok (catalog w) ->
  exists literal,
    simulatedResponses !! drawn_index env w = Some literal /\
    analyze true true env w =
      (Return (Shared (drawn_index env w), false),
       set_catalog (alter (set_processingSteps valid_steps) (drawn_index env w) (catalog w))
                   (set_draws (S (draws w)) w)) /\
    alter (set_processingSteps valid_steps) (drawn_index env w) (catalog w)
      !! drawn_index env w = Some (set_processingSteps valid_steps literal) /\
    In (status literal) ["healthy"; "warning"; "critical"; "mild"; "moderate"] /\
    0 <= confidence literal <= 100.
Proof.
  intros Hd Hc.
  destruct (getRandomResponse_index env w Hd Hc) as [o [Hi Hrun]].
  assert (Hlit : simulatedResponses !! drawn_index env w = Some (erase_processingSteps o)).
  { rewrite <- Hc, list_lookup_fmap, Hi. reflexivity. }
  exists (erase_processingSteps o). split; [exact Hlit |]. split.
  - unfold analyze. cbn [negb orb]. unfold bind. rewrite Hrun. reflexivity.
  - split.
    + rewrite list_lookup_alter_eq, Hi. reflexivity.
    + exact (simulatedResponses_lookup _ _ Hlit).
Qed.

Lemma example_env_six_tenths_draws : draws_in_range example_env_six_tenths.
Proof.
  intro n. split; [vm_compute; reflexivity |]. split; unfold Qle, Qlt; simpl; lia.
Defined.

Lemma analyze_valid_canned_witness :
  exists literal,
    simulatedResponses !! drawn_index example_env_six_tenths initial_world = Some literal /\
    analyze true true example_env_six_tenths initial_world =
      (Return (Shared (drawn_index example_env_six_tenths initial_world), false),
       set_catalog (alter (set_processingSteps valid_steps)
                          (drawn_index example_env_six_tenths initial_world)
                          (catalog initial_world))
                   (set_draws (S (draws initial_world)) initial_world)) /\
    alter (set_processingSteps valid_steps)
          (drawn_index example_env_six_tenths initial_world) (catalog initial_world)
      !! drawn_index example_env_six_tenths initial_world
      = Some (set_processingSteps valid_steps literal) /\
    In (status literal) ["healthy"; "warning"; "critical"; "mild"; "moderate"] /\
    0 <= confidence literal <= 100.
Proof.
  apply (analyze_valid_canned example_env_six_tenths initial_world).
  - exact example_env_six_tenths_draws.
  - exact initial_catalog_ok.
Defined.

(** The product is rounded to binary64 before [Math.floor] sees it: at the
    draw 0.6 the exact product is below 3 and the binary64 product is 3,
    so the outcome is the fourth of the array and not the third. *)
Example analyze_six_tenths :
  drawn_index example_env_six_tenths initial_world = 3%nat /\
  Math_floor ((5404319552844595 # 9007199254740992) * inject_Z 5) = 2 /\
  fst (analyze true true example_env_six_tenths initial_world) = Return (Shared 3, false) /\
  status <$> (simulatedResponses !! 3%nat) = Some "mild".
Proof. repeat split; vm_compute; reflexivity. Qed.

(** ** The handler's answers *)

(** X3: when the insertion succeeds the handler answers 200 with the id of
    the new row (the table's counter plus one), the two stored names under
    /uploads/ and the result; the row takes [CURRENT_TIMESTAMP], and its
    text parses to the very result that was sent. *)
Theorem detect_handler_answer_matches_row
  (env : Env) (w : World) (image1 image2 : File) :
  draws_in_range env -> catalog_ok (catalog w) -> insert_error env = false ->
  exists o row w',
    detect_handler (Some [image1; image2]) env w =
      (Return (mkResponse 200
                 (DetectBody (id row)
                    ["/uploads/" ++ image1_name row; "/uploads/" ++ image2_name row]
                    (Result_value o) (clock_values env (ticks w)))),
       w') /\
    detection_logs w' = (detection_logs w ++ [row])%list /\
    id row = sqlite_sequence w + 1 /\
    sqlite_sequence w' = id row /\
    image1_name row = filename image1 /\
    image2_name row = filename image2 /\
    created_at row = CURRENT_TIMESTAMP env /\
    parse (result row) = Some (Result_value o).
Proof.
  intros Hd Hc Herr.
  destruct (detect_handler_two_files env w image1 image2 Hd Hc)
    as [r [isInvalid [n [c [o [_ [_ [_ Hrun]]]]]]]].
  cbv zeta in Hrun. rewrite Herr in Hrun.
  exists o, (logged_row env w image1 image2 o). eexists.
  split; [exact Hrun |].
  split; [destruct w; reflexivity |].
  split; [reflexivity |]. split; [destruct w; reflexivity |].
  split; [reflexivity |]. split; [reflexivity |]. split; [reflexivity |].
  apply Result_round_trip.
Qed.

Lemma detect_handler_answer_matches_row_witness :
  exists o row w',
    detect_handler (Some [example_file "leaf1.jpg"; example_file "leaf2.jpg"])
      example_env initial_world =
      (Return (mkResponse 200
                 (DetectBody (id row)
                    ["/uploads/" ++ image1_name row; "/uploads/" ++ image2_name row]
                    (Result_value o) (clock_values example_env (ticks initial_world)))),
       w') /\
    detection_logs w' = (detection_logs initial_world ++ [row])%list /\
    id row = sqlite_sequence initial_world + 1 /\
    sqlite_sequence w' = id row /\
    image1_name row = filename (example_file "leaf1.jpg") /\
    image2_name row = filename (example_file "leaf2.jpg") /\
    created_at row = CURRENT_TIMESTAMP example_env /\
    parse (result row) = Some (Result_value o).
Proof.
  apply (detect_handler_answer_matches_row example_env initial_world).
  - exact example_env_draws.
  - exact initial_catalog_ok.
  - reflexivity.
Defined.

(** X4: when the insertion fails the handler answers 500 "Failed to log
    detection" after the delay has been spent: the table and its counter
    are as before, and the trace is the sleep, the attempted insertion and
    the console error. *)
Theorem detect_handler_insert_failure
  (env : Env) (w : World) (image1 image2 : File) :
  draws_in_range env -> catalog_ok (catalog w) -> insert_error env = true ->
  exists w' ms text,
    detect_handler (Some [image1; image2]) env w =
      (Return (mkResponse 500 (ErrorBody "Failed to log detection")), w') /\
    detection_logs w' = detection_logs w /\
    sqlite_sequence w' = sqlite_sequence w /\
    (ms = 7000 \/ ms = 15000) /\
    events w' =
      (events w ++
       [EvSleep ms; EvInsert (filename image1) (filename image2) text;
        EvConsoleError "Error logging detection:"])%list.
Proof.
  intros Hd Hc Herr.
  destruct (detect_handler_two_files env w image1 image2 Hd Hc)
    as [r [isInvalid [n [c [o [_ [_ [_ Hrun]]]]]]]].
  cbv zeta in Hrun. rewrite Herr in Hrun.
  eexists _, (if isInvalid then 7000 else 15000), _.
  split; [exact Hrun |].
  split; [destruct w; reflexivity |]. split; [destruct w; reflexivity |].
  split; [destruct isInvalid; auto |].
  destruct w. simpl. rewrite <- !app_assoc. reflexivity.
Qed.

(** An environment in which the database refuses the insertion. *)
Lemma detect_handler_insert_failure_witness :
  exists w' ms text,
    detect_handler (Some [example_file "leaf1.jpg"; example_file "leaf2.jpg"])
      example_env_db_down initial_world =
      (Return (mkResponse 500 (ErrorBody "Failed to log detection")), w') /\
    detection_logs w' = detection_logs initial_world /\
    sqlite_sequence w' = sqlite_sequence initial_world /\
    (ms = 7000 \/ ms = 15000) /\
    events w' =
      (events initial_world ++
       [EvSleep ms;
        EvInsert (filename (example_file "leaf1.jpg")) (filename (example_file "leaf2.jpg"))
                 text;
        EvConsoleError "Error logging detection:"])%list.
Proof.
  apply (detect_handler_insert_failure example_env_db_down initial_world).
  - intro n. split; [vm_compute; reflexivity |]. split; unfold Qle, Qlt; simpl; lia.
  - exact initial_catalog_ok.
  - reflexivity.
Defined.

(** ** Image intake *)









(** What the two example submissions give. *)
Example upload_array_examples :
  fst (upload_array "images" 2 (Multipart example_sent_parts) example_env initial_world)
    = Return (Some
        [ mkFile "images" "leaf1.JPG" "image/jpeg" 204800
            "1700000000000-500000000-leaf1.JPG"
            "/srv/app/uploads/1700000000000-500000000-leaf1.JPG";
          mkFile "images" "leaf2.png" "image/png" 10485759
            "1700000000000-500000000-leaf2.png"
            "/srv/app/uploads/1700000000000-500000000-leaf2.png" ]) /\
  fst (upload_array "images" 2 (Multipart example_limit_parts) example_env initial_world)
    = Throw (JsError "MulterError" "File too large").
Proof. split; vm_compute; reflexivity. Qed.

(** The random part of a stored name. *)

(** X6: the disk storage names a file with the clock reading, a dash,
    [Math.round] of the binary64 product of the draw and 10^9, a dash and
    the original name; the rounded product is a number from 0 to 10^9; it
    reads the clock once and draws once. *)
Theorem storage_filename_format (env : Env) (w : World) (originalname : string) :
  draws_in_range env ->
  storage_filename originalname env w =
    (Return ((Number_toString (clock_values env (ticks w)) ++ "-"
              ++ Number_toString
                   (Math_round (Number_mul (Math_random_values env (draws w))
                                           (inject_Z 1000000000))))
             ++ "-" ++ originalname),
     set_draws (S (draws w)) (set_ticks (S (ticks w)) w)) /\
  0 <= Math_round (Number_mul (Math_random_values env (draws w)) (inject_Z 1000000000))
    <= 1000000000.
Proof.
  intro Hd. destruct (Hd (draws w)) as [Hn [H0 H1]].
  split; [destruct w; reflexivity |].
  apply round_draw_range; assumption.
Qed.

Lemma example_env_tie_draws : draws_in_range example_env_tie.
Proof.
  intro n. split; [vm_compute; reflexivity |]. split; unfold Qle, Qlt; simpl; lia.
Defined.

Lemma storage_filename_format_witness :
  storage_filename "leaf1.jpg" example_env_tie initial_world =
    (Return ((Number_toString (clock_values example_env_tie (ticks initial_world)) ++ "-"
              ++ Number_toString
                   (Math_round
                      (Number_mul (Math_random_values example_env_tie (draws initial_world))
                                  (inject_Z 1000000000))))
             ++ "-" ++ "leaf1.jpg"),
     set_draws (S (draws initial_world)) (set_ticks (S (ticks initial_world)) initial_world)) /\
  0 <= Math_round
         (Number_mul (Math_random_values example_env_tie (draws initial_world))
                     (inject_Z 1000000000))
    <= 1000000000.
Proof.
  apply (storage_filename_format example_env_tie initial_world "leaf1.jpg").
  exact example_env_tie_draws.
Defined.

(** The product is rounded to binary64 before [Math.round] sees it: at the
    draw 2645140532454291 / 2^52 the exact product is below 587339184.5
    and the binary64 product is 587339184.5, which rounds up. *)
Example storage_filename_tie :
  fst (storage_filename "leaf1.jpg" example_env_tie initial_world)
    = Return "1700000000000-587339185-leaf1.jpg" /\
  Math_round ((2645140532454291 # 4503599627370496) * inject_Z 1000000000) = 587339184.
Proof. split; vm_compute; reflexivity. Qed.

(** *** Names are told apart by their three parts *)

Lemma string_app_assoc (a b c : string) : (a ++ b) ++ c = a ++ (b ++ c).
Proof. induction a as [| x a IH]; simpl; [reflexivity | rewrite IH; reflexivity]. Qed.

Lemma all_digits_uint (u : Decimal.uint) :
  all_digits (string_of_list_ascii (uint_chars u)) = true.
Proof. induction u; simpl; try rewrite IHu; reflexivity. Qed.

Lemma all_digits_Number_toString (n : Z) : 0 <= n -> all_digits (Number_toString n) = true.
Proof.
  intro Hn. destruct n as [| p | p]; [reflexivity | | lia].
  apply all_digits_uint.
Qed.

(** Two texts that begin with digits and a dash agree only if the digits
    and what follows the dash agree. *)
Lemma digits_dash_split (d1 d2 x y : string) :
  all_digits d1 = true -> all_digits d2 = true ->
  d1 ++ String "-" x = d2 ++ String "-" y -> d1 = d2 /\ x = y.
Proof.
  revert d2. induction d1 as [| c d1 IH]; intros [| c' d2] H1 H2 Heq; simpl in *.
  - injection Heq as ->. split; reflexivity.
  - injection Heq as <- _. discriminate H2.
  - injection Heq as -> _. discriminate H1.
  - injection Heq as -> Heq.
    apply andb_true_iff in H1. apply andb_true_iff in H2.
    destruct (IH d2 (proj2 H1) (proj2 H2) Heq) as [-> ->]. split; reflexivity.
Qed.

Lemma uint_chars_inj (u u' : Decimal.uint) : uint_chars u = uint_chars u' -> u = u'.
Proof.
  revert u'. induction u; intros [] H; simpl in H; try discriminate H;
    try reflexivity; injection H as H; f_equal; apply IHu; exact H.
Qed.

Lemma Number_toString_inj (a b : Z) :
  0 <= a -> 0 <= b -> Number_toString a = Number_toString b -> a = b.
Proof.
  intros Ha Hb H. unfold Number_toString in H.
  apply (f_equal list_ascii_of_string) in H.
  rewrite !list_ascii_of_string_of_list_ascii in H.
  destruct a as [| p | p], b as [| q | q]; try lia; try reflexivity; simpl in H.
  - change ["0"%char] with (uint_chars (Decimal.D0 Decimal.Nil)) in H.
    apply uint_chars_inj in H. symmetry in H.
    exfalso. exact (DecimalPos.Unsigned.to_uint_nonzero q H).
  - change ["0"%char] with (uint_chars (Decimal.D0 Decimal.Nil)) in H.
    apply uint_chars_inj in H.
    exfalso. exact (DecimalPos.Unsigned.to_uint_nonzero p H).
  - apply uint_chars_inj in H. apply DecimalPos.Unsigned.to_uint_inj in H.
    rewrite H. reflexivity.
Qed.

(** X7: two files get the same stored name only if the clock reading, the
    rounded binary64 product of the draw and 10^9, and the original name
    are all the same: a file is never stored over another one with a
    different original name, or one named at another time or with another
    rounded draw. *)
Theorem storage_filename_injective
  (env env' : Env) (w w' : World) (originalname originalname' name : string) :
  draws_in_range env -> draws_in_range env' ->
  0 <= clock_values env (ticks w) -> 0 <= clock_values env' (ticks w') ->
  fst (storage_filename originalname env w) = Return name ->
  fst (storage_filename originalname' env' w') = Return name ->
  clock_values env (ticks w) = clock_values env' (ticks w') /\
  Math_round (Number_mul (Math_random_values env (draws w)) (inject_Z 1000000000))
    = Math_round (Number_mul (Math_random_values env' (draws w')) (inject_Z 1000000000)) /\
  originalname = originalname'.
Proof.
  intros Hd Hd' Hc Hc' Hname Hname'.
  destruct (Hd (draws w)) as [Hn [H0 H1]]. destruct (Hd' (draws w')) as [Hn' [H0' H1']].
  pose proof (round_draw_range _ Hn H0 H1) as [Hr _].
  pose proof (round_draw_range _ Hn' H0' H1') as [Hr' _].
  unfold storage_filename, bind, Date_now, Math_random, ret in Hname, Hname'.
  cbn [fst] in Hname, Hname'. rewrite <- Hname' in Hname. clear Hname'.
  injection Hname as Heq.
  rewrite !string_app_assoc in Heq. cbn [String.append] in Heq.
  apply digits_dash_split in Heq; try (apply all_digits_Number_toString; assumption).
  destruct Heq as [Hclock Heq].
  apply digits_dash_split in Heq; try (apply all_digits_Number_toString; assumption).
  destruct Heq as [Hround Horig].
  split; [apply Number_toString_inj; assumption |].
  split; [apply Number_toString_inj; assumption | exact Horig].
Qed.

Lemma example_env_neighbour_draws : draws_in_range example_env_neighbour.
Proof.
  intro n. split; [vm_compute; reflexivity |]. split; unfold Qle, Qlt; simpl; lia.
Defined.

(** Two uploads in different requests, with the draws 1/2 and the next
    Number above it: both get the name 1700000000000-500000000-leaf1.jpg. *)
Lemma storage_filename_injective_witness :
  clock_values example_env (ticks initial_world)
    = clock_values example_env_neighbour (ticks (set_draws 6 (set_ticks 3 initial_world))) /\
  Math_round (Number_mul (Math_random_values example_env (draws initial_world))
                         (inject_Z 1000000000))
    = Math_round
        (Number_mul (Math_random_values example_env_neighbour
                       (draws (set_draws 6 (set_ticks 3 initial_world))))
                    (inject_Z 1000000000)) /\
  "leaf1.jpg" = "leaf1.jpg".
Proof.
  apply (storage_filename_injective example_env example_env_neighbour
           initial_world (set_draws 6 (set_ticks 3 initial_world))
           "leaf1.jpg" "leaf1.jpg" "1700000000000-500000000-leaf1.jpg").
  - exact example_env_draws.
  - exact example_env_neighbour_draws.
  - simpl. lia.
  - simpl. lia.
  - vm_compute. reflexivity.
  - vm_compute. reflexivity.
Defined.

(** ** POST /api/detect: every answer it can give *)



(** ** The table over any sequence of requests *)

Lemma ids_shift (a : Z) (n len : nat) :
  forall start,
    map (fun k => a + Z.of_nat k) (seq (n + start) len)
    = map (fun k => a + Z.of_nat n + Z.of_nat k) (seq start len).
Proof.
  induction len as [| len IH]; intro start; simpl; [reflexivity |].
  f_equal; [lia |]. rewrite <- IH. f_equal. f_equal. lia.
Qed.

#[local] Instance log_extends_rel : StoreRel log_extends.
Proof.
  split.
  - intro w. exists []. rewrite app_nil_r. simpl. split; [reflexivity |].
    split; [lia | reflexivity].
  - intros w1 w2 w3 [rows1 [Hl1 [Hs1 Hi1]]] [rows2 [Hl2 [Hs2 Hi2]]].
    exists (rows1 ++ rows2)%list. rewrite Hl2, Hl1, <- app_assoc.
    split; [reflexivity |]. rewrite length_app. split; [lia |].
    rewrite map_app, Hi1, Hi2, seq_app, map_app. f_equal.
    replace (1 + length rows1)%nat with (length rows1 + 1)%nat by lia.
    rewrite (ids_shift (sqlite_sequence w1) (length rows1) (length rows2) 1), Hs1.
    reflexivity.
  - intros w w' [_ [Hl Hs]]. exists []. rewrite app_nil_r. simpl.
    split; [exact Hl |]. split; [lia | reflexivity].
Qed.

Lemma log_extends_assign_processingSteps (target : option nat) (steps : list Step) :
  respects log_extends (assign_processingSteps target steps).
Proof.
  intros env w. destruct target as [i |]; simpl; destruct w; simpl;
    exists []; rewrite app_nil_r; simpl; (split; [reflexivity |]); split; (lia || reflexivity).
Qed.

Lemma log_extends_db_run_insert (image1 image2 resultText : string) :
  respects log_extends (db_run_insert image1 image2 resultText).
Proof.
  intros env w. unfold db_run_insert, bind, modify, ask, get, ret. simpl.
  destruct (insert_error env); simpl; destruct w; simpl.
  - exists []. rewrite app_nil_r. simpl. split; [reflexivity |]. split; [lia | reflexivity].
  - eexists [_]. split; [reflexivity |]. simpl. split; [lia | reflexivity].
Qed.

#[local] Hint Resolve log_extends_assign_processingSteps log_extends_db_run_insert : respects.

Lemma log_extends_analyze (image1Valid image2Valid : bool) :
  respects log_extends (analyze image1Valid image2Valid).
Proof. unfold analyze. respects_all. Qed.

#[local] Hint Resolve log_extends_analyze : respects.

Lemma log_extends_detect_handler (files : option (list File)) :
  respects log_extends (detect_handler files).
Proof. unfold detect_handler, JSON_stringify. respects_all. Qed.

#[local] Hint Resolve log_extends_detect_handler : respects.

Lemma log_extends_serve (req : Request) : respects log_extends (serve req).
Proof.
  destruct req; simpl; [| auto with respects typeclass_instances ..].
  unfold post_api_detect, default_error_handler. respects_all.
Qed.

Lemma serve_all_log_extends (reqs : list (Env * Request)) :
  forall w, log_extends w (serve_all reqs w).
Proof.
  induction reqs as [| [env req] reqs IH]; intro w; simpl.
  - apply store_rel_refl.
  - eapply store_rel_trans; [apply log_extends_serve | apply IH].
Qed.

(** X9: the table is append-only.  Whatever requests are served, in
    whatever environments, the rows that were in the table are still
    there, unchanged and in place, followed by the rows added since. *)
Theorem detection_logs_append_only (reqs : list (Env * Request)) (w : World) :
  exists rows, detection_logs (serve_all reqs w) = (detection_logs w ++ rows)%list.
Proof.
  destruct (serve_all_log_extends reqs w) as [rows [Hl _]]. exists rows. exact Hl.
Qed.

(** X10: on a server started with an empty table the ids of the rows are
    1, 2, 3, ... in insertion order, so they are pairwise different, and
    the table's counter is the number of rows. *)
Theorem detection_logs_ids (reqs : list (Env * Request)) :
  map id (detection_logs (serve_all reqs initial_world))
    = map Z.of_nat (seq 1 (length (detection_logs (serve_all reqs initial_world)))) /\
  sqlite_sequence (serve_all reqs initial_world)
    = Z.of_nat (length (detection_logs (serve_all reqs initial_world))) /\
  List.NoDup (map id (detection_logs (serve_all reqs initial_world))).
Proof.
  destruct (serve_all_log_extends reqs initial_world) as [rows [Hl [Hs Hi]]].
  simpl in Hl, Hs, Hi. rewrite Hl.
  assert (Hids : map id rows = map Z.of_nat (seq 1 (length rows))).
  { rewrite Hi. apply map_ext. intro k. lia. }
  split; [exact Hids |]. split; [exact Hs |].
  rewrite Hids. apply Finite.Injective_map_NoDup; [| apply seq_NoDup].
  intros x y Hxy. lia.
Qed.

(** ** GET /api/history on a store the server has reached *)

(** X11: on every store the server reaches the history request answers
    and never throws: no row the handler has written fails to parse.  With
    a failing query the answer is 500 "Failed to fetch history"; otherwise
    it is 200 with the min(10, n) newest rows parsed.  Nothing but the
    trace changes. *)
Theorem history_handler_on_reachable_store (reqs : list (Env * Request)) (env : Env) :
  exists resp,
    history_handler env (serve_all reqs initial_world)
      = (Return resp, add_event EvSelect (serve_all reqs initial_world)) /\
    (select_error env = true ->
       resp = mkResponse 500 (ErrorBody "Failed to fetch history")) /\
    (select_error env = false ->
       exists entries,
         resp = mkResponse 200 (HistoryBody entries) /\
         length entries
           = Nat.min 10 (length (detection_logs (serve_all reqs initial_world))) /\
         Forall2 entry_matches
           (select_recent (detection_logs (serve_all reqs initial_world))) entries).
Proof.
  set (w := serve_all reqs initial_world).
  destruct (map_eff_entry_of_row env (add_event EvSelect w)
              (select_recent (detection_logs w))
              (select_recent_Forall _ _ (serve_all_logged reqs))) as [entries [Hrun Hall]].
  destruct (select_error env) eqn:Herr.
  - eexists. split.
    + unfold history_handler, bind, modify, ask, get. rewrite Herr. reflexivity.
    + split; [reflexivity | discriminate].
  - exists (mkResponse 200 (HistoryBody entries)). split.
    + unfold history_handler, bind, modify, ask, get. rewrite Herr.
      replace (detection_logs (add_event EvSelect w)) with (detection_logs w)
        by (destruct w; reflexivity).
      rewrite Hrun. reflexivity.
    + split; [discriminate |]. intros _. exists entries. split; [reflexivity |].
      split; [| exact Hall].
      rewrite <- (Forall2_length _ _ _ Hall). apply select_recent_length.
Qed.

(** ** The query: the newest rows *)

Lemma ascii_compare_refl (c : ascii) : Ascii.compare c c = Eq.
Proof. unfold Ascii.compare. apply N.compare_refl. Qed.

Lemma string_compare_lt_trans (a : string) :
  forall b c, String.compare a b = Lt -> String.compare b c = Lt -> String.compare a c = Lt.
Proof.
  induction a as [| x a IH]; intros [| y b] [| z c]; simpl; try discriminate; try reflexivity.
  destruct (Ascii.compare x y) eqn:Exy; try discriminate;
    destruct (Ascii.compare y z) eqn:Eyz; try discriminate; intros H1 H2.
  - apply Ascii.compare_eq_iff in Exy, Eyz. subst. rewrite ascii_compare_refl.
    exact (IH _ _ H1 H2).
  - apply Ascii.compare_eq_iff in Exy. subst. rewrite Eyz. reflexivity.
  - apply Ascii.compare_eq_iff in Eyz. subst. rewrite Exy. reflexivity.
  - unfold Ascii.compare in *. rewrite N.compare_lt_iff in *.
    replace (N_of_ascii x ?= N_of_ascii z)%N with Lt; [reflexivity |].
    symmetry. apply N.compare_lt_iff. lia.
Qed.

Lemma string_leb_trans (a b c : string) :
  String.leb a b = true -> String.leb b c = true -> String.leb a c = true.
Proof.
  unfold String.leb.
  destruct (String.compare a b) eqn:Hab; try discriminate;
    destruct (String.compare b c) eqn:Hbc; try discriminate; intros _ _.
  - apply String.compare_eq_iff in Hab. subst. rewrite Hbc. reflexivity.
  - apply String.compare_eq_iff in Hab. subst. rewrite Hbc. reflexivity.
  - apply String.compare_eq_iff in Hbc. subst. rewrite Hab. reflexivity.
  - rewrite (string_compare_lt_trans _ _ _ Hab Hbc). reflexivity.
Qed.

Lemma newer_row_trans (a b c : Row) : newer_row a b -> newer_row b c -> newer_row a c.
Proof. unfold newer_row. intros Hab Hbc. exact (string_leb_trans _ _ _ Hbc Hab). Qed.

Lemma order_by_created_at_desc_StronglySorted (rows : list Row) :
  StronglySorted newer_row (order_by_created_at_desc rows).
Proof.
  apply Sorted_StronglySorted.
  - intros a b c. apply newer_row_trans.
  - apply order_by_created_at_desc_Sorted.
Qed.

Lemma StronglySorted_take_drop {A} (R : A -> A -> Prop) (n : nat) (l : list A) :
  StronglySorted R l -> Forall (fun a => Forall (R a) (skipn n l)) (firstn n l).
Proof.
  revert l. induction n as [| n IH]; intros l Hs; [constructor |].
  destruct l as [| x l]; [constructor |].
  apply StronglySorted_inv in Hs. destruct Hs as [Hs Hx]. simpl.
  constructor; [| apply IH; exact Hs].
  rewrite <- (firstn_skipn n l) in Hx. apply Forall_app in Hx. exact (proj2 Hx).
Qed.

(** X12: the query [ORDER BY created_at DESC LIMIT 10] returns the newest
    rows: min(10, n) of them, which together with the rows left out are
    the rows of the table, and each returned row is at least as new as
    every row left out. *)
Theorem select_recent_newest (rows : list Row) :
  exists rest,
    Permutation (select_recent rows ++ rest) rows /\
    length (select_recent rows) = Nat.min 10 (length rows) /\
    Forall (fun a => Forall (newer_row a) rest) (select_recent rows).
Proof.
  exists (skipn 10 (order_by_created_at_desc rows)). unfold select_recent.
  split; [| split].
  - rewrite firstn_skipn. apply order_by_created_at_desc_Permutation.
  - apply select_recent_length.
  - apply StronglySorted_take_drop. apply order_by_created_at_desc_StronglySorted.
Qed.

(** ** A detection and the history after it *)

Lemma string_ltb_not_leb (a b : string) :
  String.ltb a b = true -> String.leb b a = false.
Proof.
  unfold String.ltb, String.leb. rewrite (String.compare_antisym a b).
  destruct (String.compare b a); simpl; intro H; try discriminate H; reflexivity.
Qed.

(** A row newer than all the others sorts first. *)
Lemma order_by_created_at_desc_newest (r : Row) (rows acc : list Row) :
  Forall (fun row => String.ltb (created_at row) (created_at r) = true) rows ->
  fold_right insert_desc (r :: acc) rows = r :: fold_right insert_desc acc rows.
Proof.
  intro H. induction H as [| x rows Hx _ IH]; simpl; [reflexivity |].
  rewrite IH. simpl. rewrite (string_ltb_not_leb _ _ Hx). reflexivity.
Qed.

Lemma select_recent_newest_last (r : Row) (rows : list Row) :
  Forall (fun row => String.ltb (created_at row) (created_at r) = true) rows ->
  select_recent (rows ++ [r]) = r :: firstn 9 (order_by_created_at_desc rows).
Proof.
  intro H. unfold select_recent, order_by_created_at_desc.
  rewrite fold_right_app. simpl.
  rewrite (order_by_created_at_desc_newest r rows [] H). reflexivity.
Qed.

(** X13: a detection is the first entry of the history that follows it.
    On a store the server has reached, if the insertion succeeds at a
    [CURRENT_TIMESTAMP] later than that of every row in the table, then
    the next successful history request has the new detection first, with
    the id, the two stored names and the result that the detect request
    answered. *)
Theorem detection_heads_history
  (reqs : list (Env * Request)) (env env' : Env) (image1 image2 : File) :
  draws_in_range env -> insert_error env = false -> select_error env' = false ->
  Forall (fun row => String.ltb (created_at row) (CURRENT_TIMESTAMP env) = true)
         (detection_logs (serve_all reqs initial_world)) ->
  exists lastID images result timestamp w1 e rest,
    detect_handler (Some [image1; image2]) env (serve_all reqs initial_world)
      = (Return (mkResponse 200 (DetectBody lastID images result timestamp)), w1) /\
    fst (history_handler env' w1) = Return (mkResponse 200 (HistoryBody (e :: rest))) /\
    h_id e = lastID /\
    h_result e = result /\
    h_image1_name e = filename image1 /\
    h_image2_name e = filename image2 /\
    h_created_at e = CURRENT_TIMESTAMP env.
Proof.
  intros Hd Herr Herr' Hold. set (w := serve_all reqs initial_world) in *.
  pose proof (serve_all_store_ok reqs initial_world initial_store_ok) as Hok.
  fold w in Hok.
  assert (Hc : catalog_ok (catalog w))
    by (eapply catalog_le_ok; [apply serve_all_catalog_le | exact initial_catalog_ok]).
  destruct (detect_handler_two_files env w image1 image2 Hd Hc)
    as [r [isInvalid [n [c [o [_ [_ [_ Hrun]]]]]]]].
  cbv zeta in Hrun. rewrite Herr in Hrun.
  pose proof (hoare_detect_handler (Some [image1; image2]) env w Hok) as Hok1.
  rewrite Hrun in Hok1. destruct Hok1 as [_ Hrows1].
  match type of Hrun with _ = (_, ?final) => set (w1 := final) in * end.
  assert (Hlogs : detection_logs w1 = (detection_logs w ++ [logged_row env w image1 image2 o])%list)
    by (unfold w1; destruct w; reflexivity).
  destruct (map_eff_entry_of_row env' (add_event EvSelect w1)
              (select_recent (detection_logs w1))
              (select_recent_Forall _ _ Hrows1)) as [entries [Hmap Hall]].
  rewrite Hlogs in Hall.
  rewrite (select_recent_newest_last (logged_row env w image1 image2 o)) in Hall
    by exact Hold.
  inversion Hall as [| row e rows' rest Hm Hrest]; subst.
  destruct Hm as [Hid [Hn1 [Hn2 [Hts [Hparse _]]]]].
  eexists _, _, _, _, w1, e, rest. split; [exact Hrun |].
  split.
  - unfold history_handler, bind, modify, ask, get. rewrite Herr'.
    replace (detection_logs (add_event EvSelect w1)) with (detection_logs w1)
      by (unfold w1; destruct w; reflexivity).
    rewrite Hmap. reflexivity.
  - split; [exact Hid |]. split.
    + simpl in Hparse. rewrite Result_round_trip in Hparse. injection Hparse as <-.
      reflexivity.
    + split; [exact Hn1 |]. split; [exact Hn2 | exact Hts].
Qed.

Lemma example_older_rows :
  Forall (fun row => String.ltb (created_at row) (CURRENT_TIMESTAMP example_env_later) = true)
         (detection_logs
            (serve_all [(example_env, POST_api_detect (Multipart example_parts))]
                       initial_world)).
Proof. vm_compute. repeat constructor. Defined.

Lemma detection_heads_history_witness :
  exists lastID images result timestamp w1 e rest,
    detect_handler (Some [example_file "leaf1.jpg"; example_file "leaf2.jpg"])
      example_env_later
      (serve_all [(example_env, POST_api_detect (Multipart example_parts))] initial_world)
      = (Return (mkResponse 200 (DetectBody lastID images result timestamp)), w1) /\
    fst (history_handler example_env w1)
      = Return (mkResponse 200 (HistoryBody (e :: rest))) /\
    h_id e = lastID /\
    h_result e = result /\
    h_image1_name e = filename (example_file "leaf1.jpg") /\
    h_image2_name e = filename (example_file "leaf2.jpg") /\
    h_created_at e = CURRENT_TIMESTAMP example_env_later.
Proof.
  apply (detection_heads_history
           [(example_env, POST_api_detect (Multipart example_parts))]
           example_env_later example_env).
  - intro n. split; [vm_compute; reflexivity |]. split; unfold Qle, Qlt; simpl; lia.
  - reflexivity.
  - reflexivity.
  - exact example_older_rows.
Defined.

(** ** From the submission to the answer *)






